(** * Cheapest flight routes: a shallow embedding of [new.py]

    The development follows the Python module top-down: the three named
    tuples, the [Heap] wrapper around [heapq], the [Graph] class with its
    [defaultdict] of neighbour sets, the memoised [get_price] and the
    [dijkstra] loop.

    Conventions of the embedding.
    - A Python [float] is idealised as a rational: coordinates, which are
      hashed and compared for equality as parts of dictionary keys, are
      canonical rationals ([Qc], so that [==] is Leibniz equality); prices,
      which are only added and compared, are plain rationals ([Q]).
    - A Python object is a value together with an identity: [==], [hash]
      and [in] look at the value, [is] looks at both.
    - [haversine.haversine], [heapq] and [functools.lru_cache] are not code
      of this module.  The first is a parameter; the other two are modelled
      by their documented behaviour.
    - Mutable state ([Graph._neighbors], the cache behind [get_price]) is
      passed explicitly; the [while] loop of [dijkstra] takes fuel. *)

From Stdlib Require Import QArith Qcanon Lqa.
From stdpp Require Import gmap strings list fin_maps.

(** ** Named tuples *)

(** [Airport = namedtuple('Airport', 'code name country latitude longitude')] *)
Record Airport : Type := mkAirport {
  code : string;
  name : string;
  country : string;
  latitude : Qc;
  longitude : Qc
}.

Global Instance Airport_eq_dec : EqDecision Airport.
Proof. solve_decision. Defined.

Definition Airport_to_tuple (a : Airport) : string * string * string * Qc * Qc :=
  (code a, name a, country a, latitude a, longitude a).

Definition Airport_of_tuple (t : string * string * string * Qc * Qc) : Airport :=
  let '(c, n, k, la, lo) := t in mkAirport c n k la lo.

Global Instance Airport_countable : Countable Airport.
Proof.
  apply (inj_countable' Airport_to_tuple Airport_of_tuple).
  by intros [].
Defined.

(** An [Airport] object living in the Python heap: the tuple it holds and
    the identity that [id()] reports.  [a is b] holds when both agree. *)
Record AirportRef : Type := mkRef {
  value : Airport;
  oid : nat
}.

Global Instance AirportRef_eq_dec : EqDecision AirportRef.
Proof. solve_decision. Defined.

(** [a is b] *)
Definition is_ (a b : AirportRef) : bool := bool_decide (a = b).

(** [Flight = namedtuple('Flight', 'origin destination')], both IATA codes. *)
Record Flight : Type := mkFlight {
  origin : string;
  destination : string
}.

(** [Route = namedtuple('Route', 'price path')] *)
Record Route : Type := mkRoute {
  price : Q;
  path : list AirportRef
}.

(** ** Ordering of tuples, as [heapq] sees it *)

(** Python compares tuples and lists lexicographically. *)
Definition lex (c1 c2 : comparison) : comparison :=
  match c1 with
  | Eq => c2
  | _ => c1
  end.

Definition Airport_compare (a b : Airport) : comparison :=
  lex (String.compare (code a) (code b))
   (lex (String.compare (name a) (name b))
     (lex (String.compare (country a) (country b))
       (lex (latitude a ?= latitude b)%Qc (longitude a ?= longitude b)%Qc))).

Fixpoint path_compare (p q : list AirportRef) : comparison :=
  match p, q with
  | [], [] => Eq
  | [], _ :: _ => Lt
  | _ :: _, [] => Gt
  | a :: p', b :: q' => lex (Airport_compare (value a) (value b)) (path_compare p' q')
  end.

(** [r1 < r2] on [Route] tuples: price first, then the path. *)
Definition Route_lt (r1 r2 : Route) : bool :=
  match lex (price r1 ?= price r2)%Q (path_compare (path r1) (path r2)) with
  | Lt => true
  | _ => false
  end.

(** ** class Heap *)

(** The list [_values] is kept by [heapq]; the embedding keeps the same
    elements in push order and models [heapq.heappop] by what it is
    documented to do: remove and return the smallest item. *)
Record Heap : Type := mkHeap {
  _values : list Route
}.

(** [Heap()] *)
Definition Heap_init : Heap := mkHeap [].

(** [heapq.heappush(heap, item)] *)
Definition heappush (heap : list Route) (item : Route) : list Route :=
  heap ++ [item].

(** [heapq.heappop(heap)]: [None] stands for [IndexError] on an empty heap. *)
Fixpoint heappop (heap : list Route) : option (Route * list Route) :=
  match heap with
  | [] => None
  | r :: heap' =>
      match heappop heap' with
      | None => Some (r, [])
      | Some (m, rest) =>
          if Route_lt m r then Some (m, r :: rest) else Some (r, heap')
      end
  end.

(** [Heap.push] *)
Definition push (self : Heap) (v : Route) : Heap :=
  mkHeap (heappush (_values self) v).

(** [Heap.pop] *)
Definition pop (self : Heap) : option (Route * Heap) :=
  match heappop (_values self) with
  | Some (r, rest) => Some (r, mkHeap rest)
  | None => None
  end.

(** [Heap.__len__] *)
Definition len (self : Heap) : nat := length (_values self).

(** ** class Graph *)

(** [collections.defaultdict(set)]: a dictionary from airports to sets of
    airport objects.  A set keeps one object per value; the order in which
    Python iterates over it is unspecified, so the embedding keeps a
    duplicate-free list and every statement about [dijkstra] quantifies over
    all graphs, hence over all iteration orders. *)
Record Graph : Type := mkGraph {
  _neighbors : gmap Airport (list AirportRef)
}.

(** [Graph()] *)
Definition Graph_init : Graph := mkGraph ∅.

(** [d[key]] on a [defaultdict(set)]: a missing key is inserted with an
    empty set before it is returned. *)
Definition getitem (d : gmap Airport (list AirportRef)) (key : Airport)
  : list AirportRef * gmap Airport (list AirportRef) :=
  match d !! key with
  | Some s => (s, d)
  | None => ([], <[key := []]> d)
  end.

(** [s.add(x)]: nothing happens when an equal element is present. *)
Definition set_add (s : list AirportRef) (x : AirportRef) : list AirportRef :=
  if decide (value x ∈ value <$> s) then s else s ++ [x].

(** [self._neighbors[node1].add(node2)] *)
Definition add_neighbor (d : gmap Airport (list AirportRef)) (node1 node2 : AirportRef)
  : gmap Airport (list AirportRef) :=
  let '(s, d') := getitem d (value node1) in
  <[value node1 := set_add s node2]> d'.

(** [Graph.connect] *)
Definition connect (self : Graph) (node1 node2 : AirportRef) : Graph :=
  mkGraph (add_neighbor (add_neighbor (_neighbors self) node1 node2) node2 node1).

(** [Graph.neighbors]: the generator is run to its end by every caller, so
    it is modelled by the list it yields and the graph it leaves behind. *)
Definition neighbors (self : Graph) (node : AirportRef) : list AirportRef * Graph :=
  let '(s, d) := getitem (_neighbors self) (value node) in (s, mkGraph d).

(** [Graph.load], with the module-level [AIRPORTS] dictionary and the
    flights read by [get_flights()] as arguments.  A failed lookup is the
    [KeyError] that the [try] block turns into [continue]. *)
Definition load_flight (AIRPORTS : gmap string AirportRef) (world : Graph) (flight : Flight)
  : Graph :=
  match AIRPORTS !! origin flight with
  | None => world
  | Some o =>
      match AIRPORTS !! destination flight with
      | None => world
      | Some d => connect world o d
      end
  end.

Definition load (AIRPORTS : gmap string AirportRef) (flights : list Flight) : Graph :=
  fold_left (load_flight AIRPORTS) flights Graph_init.

(** ** Python values and exceptions that [dijkstra] and [__main__] produce *)

Inductive exn : Type := IndexError | KeyError | TypeError.

(** What [dijkstra] can return: the tuple [(price, path)] or the float
    [float('infinity')]. *)
Inductive pyvalue : Type :=
  | Tuple2 (price : Q) (path : list AirportRef)
  | FloatInfinity.

Inductive outcome (A : Type) : Type :=
  | Returned (a : A)
  | Raised (e : exn).
Arguments Returned {A} a.
Arguments Raised {A} e.

(** ** The memoised price of a direct flight *)

(** [functools.lru_cache()]: at most [maxsize] entries, keyed by the
    argument tuple as passed, most recently used first, with the two
    counters of [cache_info()]. *)
Record lru_cache : Type := mkCache {
  entries : list ((Airport * Airport) * Q);
  hits : nat;
  misses : nat
}.

(** The default of [lru_cache()]. *)
Definition maxsize : nat := 128.

(** The cache before the first call. *)
Definition cache_clear : lru_cache := mkCache [] 0 0.

(** The value stored under a key. *)
Fixpoint cache_get (key : Airport * Airport) (es : list ((Airport * Airport) * Q))
  : option Q :=
  match es with
  | [] => None
  | (k, v) :: es' => if decide (k = key) then Some v else cache_get key es'
  end.

(** The entries without the one stored under a key. *)
Definition cache_del (key : Airport * Airport) (es : list ((Airport * Airport) * Q))
  : list ((Airport * Airport) * Q) :=
  filter (λ e, e.1 ≠ key) es.

Section Pathfinding.

(** [haversine.haversine(point1, point2)], in kilometres. *)
Variable haversine : Qc * Qc → Qc * Qc → Q.

(** The default of [cents_per_km]. *)
Definition cents_per_km_default : Q := 1 # 10.

(** The body of [get_price]. *)
Definition get_price_body (origin destination : AirportRef) (cents_per_km : Q) : Q :=
  let point1 := (latitude (value origin), longitude (value origin)) in
  let point2 := (latitude (value destination), longitude (value destination)) in
  let distance := haversine point1 point2 in
  (distance * cents_per_km)%Q.

(** [Graph.get_price(origin, destination)] through the cache: both calls
    in this module pass two positional arguments, so the key is the pair
    [(origin, destination)] in that order. *)
Definition get_price (c : lru_cache) (origin destination : AirportRef) : Q * lru_cache :=
  let key := (value origin, value destination) in
  match cache_get key (entries c) with
  | Some result =>
      (result, mkCache ((key, result) :: cache_del key (entries c)) (S (hits c)) (misses c))
  | None =>
      let result := get_price_body origin destination cents_per_km_default in
      (result, mkCache (take maxsize ((key, result) :: entries c)) (hits c) (S (misses c)))
  end.

(** ** Graph.dijkstra *)

(** The variables that the [while] loop reads and writes. *)
Record LoopState : Type := mkState {
  routes : Heap;
  visited : gset Airport;
  world : Graph;
  cache : lru_cache
}.

(** Body of the first [for] loop: one route per neighbour of the origin. *)
Definition push_first (origin : AirportRef) (acc : Heap * lru_cache) (neighbor : AirportRef)
  : Heap * lru_cache :=
  let '(price, c) := get_price acc.2 origin neighbor in
  (push acc.1 (mkRoute price [origin; neighbor]), c).

(** Body of the inner [for] loop. *)
Definition relax (visited : gset Airport) (price : Q) (path : list AirportRef)
    (airport : AirportRef) (acc : Heap * lru_cache) (neighbor : AirportRef)
  : Heap * lru_cache :=
  if decide (value neighbor ∈ visited) then acc
  else
    let '(p, c) := get_price acc.2 airport neighbor in
    let new_price := (price + p)%Q in
    let new_path := path ++ [neighbor] in
    (push acc.1 (mkRoute new_price new_path), c).

Inductive step : Type :=
  | Continue (s : LoopState)
  | Return (r : outcome pyvalue) (s : LoopState).

(** One evaluation of the loop test followed by the loop body. *)
Definition iteration (destination : AirportRef) (s : LoopState) : step :=
  if decide (len (routes s) = 0) then Return (Returned FloatInfinity) s
  else
    match pop (routes s) with
    | None => Return (Raised IndexError) s
    | Some (mkRoute price path, routes') =>
        let s1 := mkState routes' (visited s) (world s) (cache s) in
        match last path with
        | None => Return (Raised IndexError) s1
        | Some airport =>
            if decide (value airport ∈ visited s) then Continue s1
            else if is_ airport destination then Return (Returned (Tuple2 price path)) s1
            else
              let '(ns, g) := neighbors (world s) airport in
              let '(routes'', c) :=
                fold_left (relax (visited s) price path airport) ns (routes', cache s) in
              Continue (mkState routes'' ({[value airport]} ∪ visited s) g c)
        end
    end.

(** [while routes: ...], then [return float('infinity')].  [None] means
    that the fuel ran out before the loop ended. *)
Fixpoint while_routes (fuel : nat) (destination : AirportRef) (s : LoopState)
  : option (outcome pyvalue * LoopState) :=
  match fuel with
  | O => None
  | S fuel' =>
      match iteration destination s with
      | Return r s' => Some (r, s')
      | Continue s' => while_routes fuel' destination s'
      end
  end.

(** The state in which the [while] loop is entered. *)
Definition dijkstra_init (self : Graph) (c : lru_cache) (origin : AirportRef) : LoopState :=
  let '(ns, g) := neighbors self origin in
  let '(routes, c') := fold_left (push_first origin) ns (Heap_init, c) in
  mkState routes {[value origin]} g c'.

(** [Graph.dijkstra(self, origin, destination)], run with the cache [c]
    behind [get_price].  The result is what the method returns or raises,
    with the final values of the loop variables, among them the graph and
    the cache as the call leaves them. *)
Definition dijkstra (fuel : nat) (self : Graph) (c : lru_cache)
    (origin destination : AirportRef)
  : option (outcome pyvalue * LoopState) :=
  while_routes fuel destination (dijkstra_init self c origin).

(** ** Vocabulary of the specification *)

(** The price of a direct flight, as [get_price] computes it on a miss.  It
    depends on the two tuples only. *)
Definition direct_price (a b : Airport) : Q :=
  (haversine (latitude a, longitude a) (latitude b, longitude b) * cents_per_km_default)%Q.

(** Every cached price is the one that the body would compute. *)
Definition cache_ok (c : lru_cache) : Prop :=
  Forall (λ e, e.2 = direct_price e.1.1 e.1.2) (entries c).

(** The keys of the cache, most recently used first. *)
Definition cache_keys (c : lru_cache) : list (Airport * Airport) := fst <$> entries c.

(** The neighbour set recorded for a node, empty when there is none. *)
Definition adj (g : Graph) (a : Airport) : list AirportRef :=
  default [] (_neighbors g !! a).

(** [b] is directly connected to [a]. *)
Definition edge (g : Graph) (a b : Airport) : Prop :=
  b ∈ value <$> adj g a.

(** A sequence of nodes in which each one is directly connected to the next. *)
Fixpoint walk (g : Graph) (p : list Airport) : Prop :=
  match p with
  | a :: (b :: _) as p' => edge g a b ∧ walk g p'
  | _ => True
  end.

(** A walk that leads from [a] to [b]. *)
Definition connects (g : Graph) (p : list Airport) (a b : Airport) : Prop :=
  walk g p ∧ head p = Some a ∧ last p = Some b.


(** The number of entries in all neighbour sets: twice the number of
    edges, less the self-loops. *)
Definition total_degree (g : Graph) : nat :=
  sum_list_with (λ kv, length kv.2) (map_to_list (_neighbors g)).

(** The same count over the nodes that are not yet visited. *)
Definition unsettled_degree (g : Graph) (V : gset Airport) : nat :=
  sum_list_with (λ kv, if decide (kv.1 ∈ V) then 0 else length kv.2)
    (map_to_list (_neighbors g)).

(** The quantity that every iteration of the loop decreases. *)
Definition measure (s : LoopState) : nat :=
  len (routes s) + unsettled_degree (world s) (visited s).

(** An iteration that goes round the loop once more. *)
Definition loop_step (destination : AirportRef) (s s' : LoopState) : Prop :=
  iteration destination s = Continue s'.

(** The state after a route has been popped and dropped. *)
Definition popped (s : LoopState) (rest : list Route) : LoopState :=
  mkState (mkHeap rest) (visited s) (world s) (cache s).

(** The state after [airport], reached through [path] at [price], has been
    settled: its neighbours enumerated, the routes to the unvisited ones
    pushed, and the airport added to [visited]. *)
Definition settled (s : LoopState) (price : Q) (path : list AirportRef)
    (rest : list Route) (airport : AirportRef) : LoopState :=
  let ns := (neighbors (world s) airport).1 in
  let acc := fold_left (relax (visited s) price path airport) ns (mkHeap rest, cache s) in
  mkState acc.1 ({[value airport]} ∪ visited s) (neighbors (world s) airport).2 acc.2.

(** The five ways through one iteration. *)
Inductive iteration_kind (destination : AirportRef) (s : LoopState) : step → Prop :=
  | it_exhausted :
      _values (routes s) = [] →
      iteration_kind destination s (Return (Returned FloatInfinity) s)
  | it_no_last c rest :
      heappop (_values (routes s)) = Some (mkRoute c [], rest) →
      iteration_kind destination s (Return (Raised IndexError) (popped s rest))
  | it_stale c p rest a :
      heappop (_values (routes s)) = Some (mkRoute c p, rest) →
      last p = Some a →
      value a ∈ visited s →
      iteration_kind destination s (Continue (popped s rest))
  | it_arrived c p rest a :
      heappop (_values (routes s)) = Some (mkRoute c p, rest) →
      last p = Some a →
      value a ∉ visited s →
      a = destination →
      iteration_kind destination s (Return (Returned (Tuple2 c p)) (popped s rest))
  | it_settle c p rest a :
      heappop (_values (routes s)) = Some (mkRoute c p, rest) →
      last p = Some a →
      value a ∉ visited s →
      a ≠ destination →
      iteration_kind destination s (Continue (settled s c p rest a)).

(** [g'] has the neighbour sets of [g], and at most some more nodes with
    an empty one. *)
Definition same_edges (g g' : Graph) : Prop :=
  ∀ k, _neighbors g' !! k = _neighbors g !! k
       ∨ (_neighbors g !! k = None ∧ _neighbors g' !! k = Some []).

(** The shape of every path in the queue: it starts with the origin object,
    has at least one hop, follows edges of the graph, ends with an object
    taken from the neighbour set of the node before it, and all its nodes
    but the last are visited. *)
Definition route_shape (g0 : Graph) (o : AirportRef) (V : gset Airport)
    (p : list AirportRef) : Prop :=
  ∃ pre a b,
    p = pre ++ [a; b] ∧ b ∈ adj g0 (value a) ∧ head p = Some o
    ∧ walk g0 (value <$> p) ∧ (∀ x, x ∈ pre ++ [a] → value x ∈ V).

(** What the loop keeps true whatever the prices are. *)
Definition Shape (g0 : Graph) (o : AirportRef) (s : LoopState) : Prop :=
  same_edges g0 (world s) ∧ value o ∈ visited s
  ∧ Forall (route_shape g0 o (visited s)) (path <$> _values (routes s)).



(** Edge costs are non-negative. *)
Definition nonneg_costs (g : Graph) : Prop :=
  ∀ a b, edge g a b → (0 <= direct_price a b)%Q.

(** The routes that the inner [for] loop pushes when [airport] is settled
    through [path] at [price], with warm or cold cache. *)
Definition pushed_routes (V : gset Airport) (price : Q) (path : list AirportRef)
    (airport : AirportRef) (ns : list AirportRef) : list Route :=
  (λ n, mkRoute (price + direct_price (value airport) (value n))%Q (path ++ [n]))
    <$> filter (λ n, value n ∉ V) ns.

End Pathfinding.

(** ** The script at the end of the module *)



(** [Graph()] followed by one [connect] per pair. *)
Definition build (edges : list (AirportRef * AirportRef)) : Graph :=
  fold_left (λ g e, connect g e.1 e.2) edges Graph_init.

(** Every node that occurs in a neighbour set has an entry of its own, as
    in every graph made by [connect]. *)
Definition closed (g : Graph) : Prop :=
  ∀ k n, n ∈ adj g k → is_Some (_neighbors g !! value n).

(** The pair of airport objects that a flight connects, when both of its
    codes are keys of the airport table. *)
Definition known_flight (AIRPORTS : gmap string AirportRef) (flight : Flight)
  : option (AirportRef * AirportRef) :=
  o ← AIRPORTS !! origin flight;
  d ← AIRPORTS !! destination flight;
  Some (o, d).

(** ** Sample data *)

(** Coordinates given in hundredths of a degree. *)
Definition degrees (hundredths : Z) : Qc := Q2Qc (hundredths # 100).

Definition VLC : AirportRef :=
  mkRef (mkAirport "VLC" "Valencia" "Spain" (degrees 3949) (degrees (-48))) 1.

Definition JFK : AirportRef :=
  mkRef (mkAirport "JFK" "John F Kennedy Intl" "United States"
           (degrees 4064) (degrees (-7378))) 2.

Definition PDX : AirportRef :=
  mkRef (mkAirport "PDX" "Portland Intl" "United States"
           (degrees 4559) (degrees (-12260))) 3.

(** A tuple equal to [PDX] at another address, as a second read of the
    airports file would make it. *)
Definition PDX_copy : AirportRef := mkRef (value PDX) 4.

Definition sample_AIRPORTS : gmap string AirportRef :=
  <["VLC" := VLC]> (<["JFK" := JFK]> (<["PDX" := PDX]> ∅)).

(** A stand-in for the distance in the examples: the squared distance in
    the plane of the coordinates.  It is not a metric, so that a detour
    can be cheaper than the direct flight. *)
Definition squared_degrees (p q : Qc * Qc) : Q :=
  let dlat := (p.1 - q.1)%Qc : Q in
  let dlon := (p.2 - q.2)%Qc : Q in
  (dlat * dlat + dlon * dlon)%Q.

(** Three airports, each connected to the other two; the flight to an
    unknown code is dropped by [load]. *)
Definition triangle : Graph :=
  load sample_AIRPORTS
    [mkFlight "VLC" "JFK"; mkFlight "JFK" "PDX"; mkFlight "VLC" "PDX"; mkFlight "VLC" "ZZZ"].

(** Valencia and New York connected, Portland on its own. *)
Definition island_flights : list Flight := [mkFlight "VLC" "JFK"; mkFlight "PDX" "ZZZ"].

Definition island : Graph := load sample_AIRPORTS island_flights.

(** ** Further vocabulary for the search *)

(** Every edge that leaves the visited set ends in a node in which some
    queued route ends. *)
Definition Covered (g0 : Graph) (s : LoopState) : Prop :=
  ∀ v w, v ∈ visited s → edge g0 v w → w ∉ visited s →
    ∃ p b, p ∈ path <$> _values (routes s) ∧ last p = Some b ∧ value b = w.

(** Every visited node is the origin, or was settled through an object of
    a neighbour set that is not the destination object. *)
Definition Passed (g0 : Graph) (o d : AirportRef) (s : LoopState) : Prop :=
  ∀ v, v ∈ visited s →
    v = value o ∨ ∃ k a, a ∈ adj g0 k ∧ value a = v ∧ a ≠ d.

(** The graph holds no second object equal to [d]. *)
Definition one_object (g : Graph) (d : AirportRef) : Prop :=
  ∀ k n, n ∈ adj g k → value n = value d → n = d.

(** In every queued path the nodes before the last are pairwise different. *)
Definition Simple (s : LoopState) : Prop :=
  Forall (λ p, ∃ pre b, p = pre ++ [b] ∧ NoDup (value <$> pre))
    (path <$> _values (routes s)).

(** Two states of the loop that differ at most in what the cache holds and
    in which nodes have an empty entry in the graph. *)
Definition agree (ok : lru_cache → Prop) (s1 s2 : LoopState) : Prop :=
  routes s1 = routes s2 ∧ visited s1 = visited s2
  ∧ (∀ k, adj (world s1) k = adj (world s2) k)
  ∧ ok (cache s1) ∧ ok (cache s2).

(** The cache is within its bound and holds every key once. *)
Definition cache_wf (c : lru_cache) : Prop :=
  length (entries c) ≤ maxsize ∧ NoDup (fst <$> entries c).

(** ** Reading the two tables *)

(** The exceptions that [get_airports] and [get_flights] raise on a row:
    [IndexError] for a missing column, [ValueError] for a number that does
    not parse. *)
Inductive read_exn : Type := ReadIndexError | ReadValueError.

Inductive reading (A : Type) : Type :=
  | Got (a : A)
  | Failed (e : read_exn).
Arguments Got {A} a.
Arguments Failed {A} e.

Global Instance reading_ret : MRet reading := λ A a, Got a.

Global Instance reading_bind : MBind reading := λ A B f m,
  match m with
  | Got a => f a
  | Failed e => Failed e
  end.

(** [row[i]] on a row of [csv.reader], a list of strings. *)
Definition item (row : list string) (i : nat) : reading string :=
  match row !! i with
  | Some x => Got x
  | None => Failed ReadIndexError
  end.

Section Readers.

(** [float(s)] and [int(s)], with [None] for [ValueError]. *)
Variable float : string → option Qc.
Variable int : string → option Z.

Definition to_float (s : string) : reading Qc :=
  match float s with
  | Some x => Got x
  | None => Failed ReadValueError
  end.

Definition to_int (s : string) : reading Z :=
  match int s with
  | Some n => Got n
  | None => Failed ReadValueError
  end.

(** The body of the loop of [get_airports]. *)
Definition airport_of_row (row : list string) : reading Airport :=
  name ← item row 1;
  country ← item row 3;
  code ← item row 4;
  latitude ← item row 6 ≫= to_float;
  longitude ← item row 7 ≫= to_float;
  mret (mkAirport code name country latitude longitude).

(** [get_airports()], on the rows of the file: the objects it yields, each
    a new one, and the exception that ends it, if any.  The row number
    serves as identity. *)
Fixpoint get_airports_from (i : nat) (rows : list (list string))
  : list AirportRef * option read_exn :=
  match rows with
  | [] => ([], None)
  | row :: rows' =>
      match airport_of_row row with
      | Failed e => ([], Some e)
      | Got a =>
          let '(l, e) := get_airports_from (S i) rows' in (mkRef a i :: l, e)
      end
  end.

Definition get_airports (rows : list (list string)) : list AirportRef * option read_exn :=
  get_airports_from 0 rows.

(** [{airport.code: airport for airport in ...}] *)
Definition by_code (airports : list AirportRef) : gmap string AirportRef :=
  fold_left (λ m airport, <[code (value airport) := airport]> m) airports ∅.

(** The module-level [AIRPORTS]. *)
Definition AIRPORTS_of (rows : list (list string)) : reading (gmap string AirportRef) :=
  match get_airports rows with
  | (airports, None) => Got (by_code airports)
  | (_, Some e) => Failed e
  end.

(** The body of the loop of [get_flights]: the flight to yield, if any. *)
Definition flight_of_row (row : list string) : reading (option Flight) :=
  origin ← item row 2;
  destination ← item row 4;
  nstops ← item row 7 ≫= to_int;
  mret (if decide (nstops = 0%Z) then Some (mkFlight origin destination) else None).

(** [get_flights()], on the rows of the file. *)
Fixpoint get_flights (rows : list (list string)) : list Flight * option read_exn :=
  match rows with
  | [] => ([], None)
  | row :: rows' =>
      match flight_of_row row with
      | Failed e => ([], Some e)
      | Got f =>
          let '(l, e) := get_flights rows' in
          (match f with Some flight => flight :: l | None => l end, e)
      end
  end.

(** [Graph.load()] on the rows of the flights file: an exception of the
    generator ends the [for] loop and the call. *)
Definition load_rows (AIRPORTS : gmap string AirportRef) (rows : list (list string))
  : reading Graph :=
  match get_flights rows with
  | (flights, None) => Got (load AIRPORTS flights)
  | (_, Some e) => Failed e
  end.

End Readers.

(** A row of each table has at least eight columns in which the numbers
    parse. *)
Definition airport_row_ok (float : string → option Qc) (row : list string) : Prop :=
  8 ≤ length row
  ∧ (∀ s, row !! 6 = Some s → is_Some (float s))
  ∧ (∀ s, row !! 7 = Some s → is_Some (float s)).

Definition flight_row_ok (int : string → option Z) (row : list string) : Prop :=
  8 ≤ length row ∧ (∀ s, row !! 7 = Some s → is_Some (int s)).

(** A reader of numbers for the examples: it knows four strings. *)
Definition sample_float (s : string) : option Qc :=
  if decide (s = "39.49") then Some (degrees 3949)
  else if decide (s = "-0.48") then Some (degrees (-48))
  else if decide (s = "45.59") then Some (degrees 4559)
  else if decide (s = "-122.60") then Some (degrees (-12260))
  else None.

Definition sample_int (s : string) : option Z :=
  if decide (s = "0") then Some 0%Z
  else if decide (s = "1") then Some 1%Z
  else None.

Definition sample_airport_rows : list (list string) :=
  [ ["1"; "Valencia"; "Valencia"; "Spain"; "VLC"; "LEVC"; "39.49"; "-0.48"];
    ["2"; "Portland Intl"; "Portland"; "United States"; "PDX"; "KPDX"; "45.59"; "-122.60"] ].

Definition sample_flight_rows : list (list string) :=
  [ ["IB"; "1"; "VLC"; "1"; "PDX"; "2"; ""; "0"];
    ["IB"; "1"; "VLC"; "1"; "JFK"; "3"; ""; "1"] ].

(** ** Proof automation *)

(** * Proofs *)

#[local] Set Warnings "-clear-no-such-hyp".

(** ** The heap *)

Lemma Route_lt_price (m r : Route) : Route_lt m r = false → (price r <= price m)%Q.
Proof.
  unfold Route_lt, lex. destruct (price m ?= price r)%Q eqn:E.
  - intros _. apply Qeq_alt in E. rewrite E. apply Qle_refl.
  - discriminate.
  - intros _. apply Qgt_alt in E. by apply Qlt_le_weak.
Qed.

Lemma Route_lt_true_price (m r : Route) : Route_lt m r = true → (price m <= price r)%Q.
Proof.
  unfold Route_lt, lex. destruct (price m ?= price r)%Q eqn:E; try discriminate.
  - intros _. apply Qeq_alt in E. rewrite E. apply Qle_refl.
  - intros _. apply Qlt_alt in E. by apply Qlt_le_weak.
Qed.

Lemma heappop_None (h : list Route) : heappop h = None ↔ h = [].
Proof.
  destruct h as [|r h]; simpl; [done|].
  split; [|done]. destruct (heappop h) as [[m rest]|]; [|done].
  by destruct (Route_lt m r).
Qed.

Lemma heappop_perm (h : list Route) m rest :
  heappop h = Some (m, rest) → h ≡ₚ m :: rest.
Proof.
  revert m rest. induction h as [|r h IH]; intros m rest; simpl; [done|].
  destruct (heappop h) as [[m' rest']|] eqn:E.
  - destruct (Route_lt m' r); intros [= <- <-].
    + rewrite (IH _ _ eq_refl). apply Permutation_swap.
    + done.
  - intros [= <- <-]. apply heappop_None in E. by subst.
Qed.

Lemma heappop_least (h : list Route) m rest :
  heappop h = Some (m, rest) → ∀ r, r ∈ h → (price m <= price r)%Q.
Proof.
  revert m rest. induction h as [|r0 h IH]; intros m rest; simpl; [done|].
  destruct (heappop h) as [[m' rest']|] eqn:E.
  - destruct (Route_lt m' r0) eqn:L; intros [= <- <-] r Hr.
    + apply elem_of_cons in Hr as [->|Hr]; [by apply Route_lt_true_price|].
      by apply (IH _ _ eq_refl).
    + apply elem_of_cons in Hr as [->|Hr]; [apply Qle_refl|].
      eapply Qle_trans; [by apply Route_lt_price|]. by apply (IH _ _ eq_refl).
  - intros [= <- <-] r Hr. apply heappop_None in E. subst.
    apply list_elem_of_singleton in Hr as ->. apply Qle_refl.
Qed.

Lemma heappop_length (h : list Route) m rest :
  heappop h = Some (m, rest) → length h = S (length rest).
Proof. intros H. by rewrite (heappop_perm _ _ _ H). Qed.

(** ** The defaultdict *)

Lemma getitem_fst (d : gmap Airport (list AirportRef)) k :
  (getitem d k).1 = default [] (d !! k).
Proof. unfold getitem. by destruct (d !! k). Qed.

Lemma getitem_lookup (d : gmap Airport (list AirportRef)) k k' :
  default [] ((getitem d k).2 !! k') = default [] (d !! k').
Proof.
  unfold getitem. destruct (d !! k) eqn:E; simpl; [done|].
  destruct (decide (k = k')) as [->|Hne].
  - by rewrite lookup_insert_eq, E.
  - by rewrite lookup_insert_ne.
Qed.

Lemma getitem_present (d : gmap Airport (list AirportRef)) k :
  is_Some (d !! k) → (getitem d k).2 = d.
Proof. intros [s Hs]. unfold getitem. by rewrite Hs. Qed.

Lemma neighbors_fst g node : (neighbors g node).1 = adj g (value node).
Proof.
  unfold neighbors, adj. rewrite <- getitem_fst.
  by destruct (getitem (_neighbors g) (value node)).
Qed.

Lemma neighbors_adj g node k : adj (neighbors g node).2 k = adj g k.
Proof.
  unfold neighbors, adj. rewrite <- (getitem_lookup (_neighbors g) (value node) k).
  by destruct (getitem (_neighbors g) (value node)).
Qed.

Lemma neighbors_present g node :
  is_Some (_neighbors g !! value node) → (neighbors g node).2 = g.
Proof.
  intros H. unfold neighbors. pose proof (getitem_present _ _ H) as E.
  destruct (getitem (_neighbors g) (value node)) as [s d]. simpl in E. subst.
  by destruct g.
Qed.

(** ** The price cache *)

Lemma cache_get_Some key es v : cache_get key es = Some v → (key, v) ∈ es.
Proof.
  induction es as [|[k w] es IH]; simpl; [done|].
  case_decide as Hk.
  - intros [= ->]. subst. apply list_elem_of_here.
  - intros H. apply list_elem_of_further. by apply IH.
Qed.

Lemma cache_get_None key es : cache_get key es = None ↔ key ∉ es.*1.
Proof.
  induction es as [|[k w] es IH]; simpl.
  - split; [intros _; apply not_elem_of_nil|done].
  - case_decide as Hk.
    + subst. split; [done|]. intros H. destruct H. apply list_elem_of_here.
    + rewrite IH, not_elem_of_cons.
      split; [intros ?; split; [congruence|done]|by intros [_ ?]].
Qed.

Lemma cache_get_head key v es : cache_get key ((key, v) :: es) = Some v.
Proof. simpl. by rewrite decide_True. Qed.

Section Cache.
Variable haversine : Qc * Qc → Qc * Qc → Q.

Lemma get_price_body_direct a b :
  get_price_body haversine a b cents_per_km_default
  = direct_price haversine (value a) (value b).
Proof. reflexivity. Qed.

Lemma get_price_ok c a b :
  cache_ok haversine c →
  (get_price haversine c a b).1 = direct_price haversine (value a) (value b)
  ∧ cache_ok haversine (get_price haversine c a b).2.
Proof.
  unfold cache_ok, get_price. intros Hc.
  destruct (cache_get _ _) as [v|] eqn:E; simpl.
  - apply cache_get_Some in E.
    pose proof (proj1 (Forall_forall _ _) Hc _ E) as Hv. simpl in Hv.
    split; [done|]. constructor; [done|].
    apply Forall_forall. intros e He. apply list_elem_of_filter in He as [_ He].
    by apply (proj1 (Forall_forall _ _) Hc).
  - split; [done|]. constructor; [done|]. by apply Forall_take.
Qed.

Lemma cache_clear_ok : cache_ok haversine cache_clear.
Proof. constructor. Qed.

(** ** The two [for] loops *)

Lemma push_first_paths o ns h c :
  path <$> _values (fold_left (push_first haversine o) ns (h, c)).1
  = (path <$> _values h) ++ ((λ n, [o; n]) <$> ns).
Proof.
  revert h c. induction ns as [|n ns IH]; intros h c; simpl.
  - by rewrite app_nil_r.
  - unfold push_first at 2. simpl. destruct (get_price haversine c o n) as [p c'].
    rewrite IH. simpl. unfold heappush. rewrite fmap_app. simpl.
    by rewrite <- app_assoc.
Qed.

Lemma push_first_priced o ns h c :
  cache_ok haversine c →
  _values (fold_left (push_first haversine o) ns (h, c)).1
  = _values h ++ ((λ n, mkRoute (direct_price haversine (value o) (value n)) [o; n]) <$> ns)
  ∧ cache_ok haversine (fold_left (push_first haversine o) ns (h, c)).2.
Proof.
  revert h c. induction ns as [|n ns IH]; intros h c Hc; simpl.
  - by rewrite app_nil_r.
  - unfold push_first at 2 4. simpl.
    destruct (get_price_ok c o n Hc) as [Hp Hc'].
    destruct (get_price haversine c o n) as [p c']. simpl in *. subst p.
    destruct (IH (push h (mkRoute (direct_price haversine (value o) (value n)) [o; n])) c' Hc')
      as [-> ?].
    split; [|done]. simpl. unfold heappush. by rewrite <- app_assoc.
Qed.

Lemma relax_paths V c p a ns h ch :
  path <$> _values (fold_left (relax haversine V c p a) ns (h, ch)).1
  = (path <$> _values h) ++ ((λ n, p ++ [n]) <$> filter (λ n, value n ∉ V) ns).
Proof.
  revert h ch. induction ns as [|n ns IH]; intros h ch; simpl.
  - by rewrite app_nil_r.
  - unfold relax at 2. simpl. rewrite filter_cons.
    destruct (decide (value n ∈ V)) as [Hin|Hout].
    + rewrite decide_False by (by intros ?). apply IH.
    + rewrite decide_True by done.
      destruct (get_price haversine ch a n) as [q ch'].
      rewrite IH. simpl. unfold heappush. rewrite fmap_app. simpl.
      by rewrite <- app_assoc.
Qed.

Lemma relax_priced V c p a ns h ch :
  cache_ok haversine ch →
  _values (fold_left (relax haversine V c p a) ns (h, ch)).1
  = _values h ++ pushed_routes haversine V c p a ns
  ∧ cache_ok haversine (fold_left (relax haversine V c p a) ns (h, ch)).2.
Proof.
  unfold pushed_routes.
  revert h ch. induction ns as [|n ns IH]; intros h ch Hc; simpl.
  - by rewrite app_nil_r.
  - unfold relax at 2 4. simpl. rewrite filter_cons.
    destruct (decide (value n ∈ V)) as [Hin|Hout].
    + rewrite decide_False by (by intros ?). by apply IH.
    + rewrite decide_True by done.
      destruct (get_price_ok ch a n Hc) as [Hp Hc'].
      destruct (get_price haversine ch a n) as [q ch']. simpl in *. subst q.
      destruct (IH (push h (mkRoute (c + direct_price haversine (value a) (value n))
                              (p ++ [n]))) ch' Hc') as [-> ?].
      split; [|done]. simpl. unfold heappush. by rewrite <- app_assoc.
Qed.

Lemma relax_len V c p a ns h ch :
  len (fold_left (relax haversine V c p a) ns (h, ch)).1
  = len h + length (filter (λ n, value n ∉ V) ns).
Proof.
  unfold len.
  rewrite <- (length_fmap path (_values _)), relax_paths.
  by rewrite length_app, !length_fmap.
Qed.

End Cache.

(** ** One iteration of the loop *)

Section Loop.
Variable haversine : Qc * Qc → Qc * Qc → Q.

Lemma iteration_kind_spec d s : iteration_kind haversine d s (iteration haversine d s).
Proof.
  unfold iteration. destruct s as [[h] V g c]. unfold len, pop. simpl.
  case_decide as Hlen.
  { apply it_exhausted. simpl. by apply nil_length_inv. }
  destruct (heappop h) as [[[q p] rest]|] eqn:Hpop.
  2:{ apply heappop_None in Hpop. by subst. }
  destruct (last p) as [a|] eqn:Hlast.
  2:{ apply last_None in Hlast. subst. by apply (it_no_last _ _ (mkState _ _ _ _) q rest). }
  case_decide as Hv.
  { by apply (it_stale _ _ (mkState _ _ _ _) q p rest a). }
  unfold is_. case_bool_decide as Hd.
  { by apply (it_arrived _ _ (mkState _ _ _ _) q p rest a). }
  pose proof (it_settle haversine d (mkState (mkHeap h) V g c) q p rest a Hpop Hlast Hv Hd) as K.
  unfold settled in K. simpl in K.
  destruct (neighbors g a) as [ns g']. simpl in K.
  by destruct (fold_left _ ns _) as [h' c'].
Qed.

Lemma iteration_Continue_inv d s s' :
  iteration haversine d s = Continue s' →
  ∃ c p rest a,
    heappop (_values (routes s)) = Some (mkRoute c p, rest) ∧ last p = Some a ∧
    ((value a ∈ visited s ∧ s' = popped s rest)
     ∨ ((value a ∉ visited s) ∧ a ≠ d ∧ s' = settled haversine s c p rest a)).
Proof.
  intros H. pose proof (iteration_kind_spec d s) as K. rewrite H in K.
  inversion K; subst; eauto 10.
Qed.

Lemma iteration_Return_inv d s r s' :
  iteration haversine d s = Return r s' →
  (r = Returned FloatInfinity ∧ _values (routes s) = [] ∧ s' = s)
  ∨ (∃ c rest, heappop (_values (routes s)) = Some (mkRoute c [], rest)
       ∧ r = Raised IndexError ∧ s' = popped s rest)
  ∨ (∃ c p rest,
       heappop (_values (routes s)) = Some (mkRoute c p, rest) ∧ last p = Some d ∧
       (value d ∉ visited s) ∧ r = Returned (Tuple2 c p) ∧ s' = popped s rest).
Proof.
  intros H. pose proof (iteration_kind_spec d s) as K. rewrite H in K.
  inversion K; subst; eauto 10.
Qed.

(** ** Termination *)

Lemma sum_list_with_ext_in {A} (f g : A → nat) (l : list A) :
  (∀ x, x ∈ l → f x = g x) → sum_list_with f l = sum_list_with g l.
Proof.
  induction l as [|x l IH]; simpl; [done|]. intros H.
  rewrite (H x) by apply list_elem_of_here.
  rewrite IH; [done|]. intros y Hy. apply H. by apply list_elem_of_further.
Qed.

Lemma sum_list_with_le {A} (f g : A → nat) (l : list A) :
  (∀ x, f x ≤ g x) → sum_list_with f l ≤ sum_list_with g l.
Proof.
  intros H. induction l as [|x l IH]; simpl; [done|]. specialize (H x). lia.
Qed.

Lemma unsettled_degree_le g V : unsettled_degree g V ≤ total_degree g.
Proof.
  apply sum_list_with_le. intros [k s]. simpl. case_decide; lia.
Qed.

Lemma unsettled_degree_neighbors g node V :
  unsettled_degree (neighbors g node).2 V = unsettled_degree g V.
Proof.
  unfold unsettled_degree, neighbors, getitem.
  destruct (_neighbors g !! value node) eqn:E; simpl; [done|].
  rewrite map_to_list_insert by done. simpl. by case_decide.
Qed.

Lemma total_degree_neighbors g node :
  total_degree (neighbors g node).2 = total_degree g.
Proof.
  unfold total_degree, neighbors, getitem.
  destruct (_neighbors g !! value node) eqn:E; simpl; [done|].
  by rewrite map_to_list_insert.
Qed.

Lemma unsettled_degree_settle g a V :
  a ∉ V →
  unsettled_degree g ({[a]} ∪ V) + length (adj g a) = unsettled_degree g V.
Proof.
  intros Ha. unfold unsettled_degree, adj.
  destruct (_neighbors g !! a) as [s|] eqn:E; simpl.
  - rewrite <- (map_to_list_delete _ _ _ E). simpl.
    rewrite decide_True by set_solver. rewrite decide_False by done.
    rewrite (sum_list_with_ext_in _ (λ kv, if decide (kv.1 ∈ V) then 0 else length kv.2)); [lia|].
    intros [k x] Hk. apply elem_of_map_to_list in Hk. simpl.
    assert (k ≠ a) by (intros ->; by rewrite lookup_delete_eq in Hk).
    repeat case_decide; set_solver.
  - rewrite Nat.add_0_r. apply sum_list_with_ext_in.
    intros [k x] Hk. apply elem_of_map_to_list in Hk. simpl.
    assert (k ≠ a) by congruence.
    repeat case_decide; set_solver.
Qed.

Lemma length_filter_le {A} (P : A → Prop) `{∀ x, Decision (P x)} (l : list A) :
  length (filter P l) ≤ length l.
Proof. apply length_filter. Qed.

(** Every iteration that goes round again decreases the measure. *)
Lemma loop_step_measure d s s' :
  loop_step haversine d s s' → measure s' < measure s.
Proof.
  unfold loop_step. intros H.
  apply iteration_Continue_inv in H as (c & p & rest & a & Hpop & Hlast & H).
  apply heappop_length in Hpop.
  destruct H as [[Hv ->]|(Hv & Hd & ->)]; unfold measure, settled, popped, len in *; simpl.
  - lia.
  - fold (len (fold_left (relax haversine (visited s) c p a) (neighbors (world s) a).1
                 ({| _values := rest |}, cache s)).1).
    rewrite relax_len, unsettled_degree_neighbors, neighbors_fst.
    pose proof (unsettled_degree_settle (world s) (value a) (visited s) Hv).
    pose proof (length_filter_le (λ n, value n ∉ visited s) (adj (world s) (value a))).
    unfold len. simpl. lia.
Qed.

Lemma nsteps_measure d n s s' :
  nsteps (loop_step haversine d) n s s' → n + measure s' ≤ measure s.
Proof.
  induction 1 as [|n s1 s2 s3 H1 _ IH]; [done|].
  apply loop_step_measure in H1. lia.
Qed.

Lemma while_routes_terminates d fuel s :
  measure s < fuel → is_Some (while_routes haversine fuel d s).
Proof.
  revert s. induction fuel as [|fuel IH]; intros s Hm; [lia|]. simpl.
  destruct (iteration haversine d s) as [s'|r s'] eqn:E; [|by eexists].
  apply IH. apply loop_step_measure in E. lia.
Qed.

Lemma while_routes_fuel_mono d fuel fuel' s x :
  while_routes haversine fuel d s = Some x → fuel ≤ fuel' →
  while_routes haversine fuel' d s = Some x.
Proof.
  revert fuel' s. induction fuel as [|fuel IH]; intros fuel' s; simpl; [done|].
  intros H Hle. destruct fuel' as [|fuel']; [lia|]. simpl.
  destruct (iteration haversine d s); [|done]. apply IH; [done|lia].
Qed.

(** A run of the loop is a sequence of steps closed by a returning iteration. *)
Lemma while_routes_nsteps d fuel s r s' :
  while_routes haversine fuel d s = Some (r, s') →
  ∃ n s1, n < fuel ∧ nsteps (loop_step haversine d) n s s1
          ∧ iteration haversine d s1 = Return r s'.
Proof.
  revert s. induction fuel as [|fuel IH]; intros s; simpl; [done|].
  destruct (iteration haversine d s) as [s2|r2 s2] eqn:E.
  - intros H. apply IH in H as (n & s1 & Hn & Hsteps & Hret).
    exists (S n), s1. split; [lia|]. split; [|done]. by eapply nsteps_l.
  - intros [= -> ->]. exists 0, s. split; [lia|]. split; [constructor|done].
Qed.

Lemma dijkstra_init_fields g c o :
  let s := dijkstra_init haversine g c o in
  visited s = {[value o]} ∧ world s = (neighbors g o).2
  ∧ routes s = (fold_left (push_first haversine o) (neighbors g o).1 (Heap_init, c)).1
  ∧ cache s = (fold_left (push_first haversine o) (neighbors g o).1 (Heap_init, c)).2.
Proof.
  unfold dijkstra_init. destruct (neighbors g o) as [ns g']. simpl.
  by destruct (fold_left _ ns _).
Qed.

Lemma measure_init g c o : measure (dijkstra_init haversine g c o) ≤ total_degree g.
Proof.
  destruct (dijkstra_init_fields g c o) as (Hv & Hw & Hr & _).
  unfold measure. rewrite Hv, Hw, Hr. unfold len.
  rewrite <- (length_fmap path), push_first_paths. simpl. rewrite length_fmap.
  rewrite unsettled_degree_neighbors, neighbors_fst.
  destruct (decide (value o ∈ (∅ : gset Airport))) as [?|Hne]; [set_solver|].
  pose proof (unsettled_degree_settle g (value o) ∅ Hne) as H.
  rewrite (right_id_L ∅ (∪)) in H.
  pose proof (unsettled_degree_le g ∅). lia.
Qed.

Lemma dijkstra_terminates fuel g c o d :
  total_degree g < fuel → is_Some (dijkstra haversine fuel g c o d).
Proof.
  intros H. apply while_routes_terminates. pose proof (measure_init g c o). lia.
Qed.

End Loop.

(** ** What the loop keeps true whatever the prices are *)

Section ShapeInvariant.
Variable haversine : Qc * Qc → Qc * Qc → Q.

Lemma app_two {A} (pre : list A) (a b : A) : pre ++ [a; b] = (pre ++ [a]) ++ [b].
Proof. by rewrite <- app_assoc. Qed.


Lemma same_edges_trans g1 g2 g3 :
  same_edges g1 g2 → same_edges g2 g3 → same_edges g1 g3.
Proof.
  intros H12 H23 k. destruct (H12 k) as [E|[E1 E2]], (H23 k) as [F|[F1 F2]].
  - left. congruence.
  - right. split; congruence.
  - right. split; congruence.
  - congruence.
Qed.

Lemma same_edges_neighbors g node : same_edges g (neighbors g node).2.
Proof.
  intros k. unfold neighbors, getitem.
  destruct (_neighbors g !! value node) eqn:E; simpl; [by left|].
  destruct (decide (value node = k)) as [<-|Hne].
  - right. by rewrite lookup_insert_eq.
  - left. by rewrite lookup_insert_ne.
Qed.

Lemma same_edges_adj g g' k : same_edges g g' → adj g' k = adj g k.
Proof. intros H. unfold adj. by destruct (H k) as [->|[-> ->]]. Qed.

Lemma walk_snoc g q a b :
  walk g q → last q = Some a → edge g a b → walk g (q ++ [b]).
Proof.
  induction q as [|x [|y q] IH]; simpl; [done| |].
  - intros _ [= ->] He. done.
  - intros [Hxy Hw] Hl He. split; [done|]. by apply IH.
Qed.

Lemma walk_app_inv g q1 q2 : walk g (q1 ++ q2) → walk g q1 ∧ walk g q2.
Proof.
  induction q1 as [|x [|y q1] IH]; simpl; [done| |].
  - destruct q2; [done|]. intros [_ ?]. done.
  - intros [Hxy Hw]. destruct (IH Hw). done.
Qed.

Lemma route_shape_mono g0 o V V' p :
  V ⊆ V' → route_shape g0 o V p → route_shape g0 o V' p.
Proof.
  intros HV (pre & a & b & -> & Hb & Hh & Hw & Hvis).
  exists pre, a, b. repeat split; try done. intros x Hx. apply HV. by apply Hvis.
Qed.

Lemma route_shape_last g0 o V p :
  route_shape g0 o V p → ∃ a b, last p = Some b ∧ b ∈ adj g0 (value a).
Proof.
  intros (pre & a & b & -> & Hb & _). exists a, b. split; [|done].
  by rewrite app_two, last_snoc.
Qed.

Lemma route_shape_snoc g0 o V p a n :
  route_shape g0 o V p → last p = Some a → n ∈ adj g0 (value a) →
  route_shape g0 o ({[value a]} ∪ V) (p ++ [n]).
Proof.
  intros (pre & a0 & b & -> & Hb & Hh & Hw & Hvis) Hl Hn.
  rewrite app_two, last_snoc in Hl. injection Hl as ->.
  exists (pre ++ [a0]), a, n. split; [by rewrite <- !app_assoc|].
  split; [done|]. split.
  { destruct pre; simpl in *; done. }
  split.
  - rewrite fmap_app. simpl. eapply walk_snoc; [done| |].
    + rewrite app_two, fmap_app. simpl. by rewrite last_snoc.
    + unfold edge. by apply list_elem_of_fmap_2.
  - intros x Hx. apply elem_of_app in Hx as [Hx|Hx].
    + apply elem_of_union_r. by apply Hvis.
    + apply list_elem_of_singleton in Hx as ->. apply elem_of_union_l. set_solver.
Qed.

Lemma Shape_init g c o : Shape g o (dijkstra_init haversine g c o).
Proof.
  destruct (dijkstra_init_fields haversine g c o) as (Hv & Hw & Hr & _).
  unfold Shape. rewrite Hv, Hw, Hr. split; [apply same_edges_neighbors|].
  split; [set_solver|]. rewrite push_first_paths, neighbors_fst. simpl.
  apply Forall_fmap, Forall_forall. intros n Hn. simpl.
  exists [], o, n. repeat split; try done.
  - unfold edge. by apply list_elem_of_fmap_2.
  - intros x Hx. apply list_elem_of_singleton in Hx as ->. set_solver.
Qed.

Lemma Shape_step g0 o d s s' :
  Shape g0 o s → loop_step haversine d s s' → Shape g0 o s'.
Proof.
  intros (He & Ho & Hr) H.
  apply iteration_Continue_inv in H as (c & p & rest & a & Hpop & Hlast & H).
  pose proof (heappop_perm _ _ _ Hpop) as Hperm.
  rewrite Hperm in Hr. simpl in Hr. apply Forall_cons in Hr as [Hp Hrest].
  destruct H as [[Hv ->]|(Hv & Hd & ->)]; unfold Shape, settled, popped; simpl.
  - done.
  - split; [eapply same_edges_trans; [done|apply same_edges_neighbors]|].
    split; [set_solver|].
    rewrite relax_paths, neighbors_fst, (same_edges_adj _ _ _ He). simpl.
    apply Forall_app. split.
    + eapply Forall_impl; [done|]. intros q. apply route_shape_mono. set_solver.
    + apply Forall_fmap, Forall_forall. intros n Hn. simpl.
      apply list_elem_of_filter in Hn as [_ Hn]. by apply route_shape_snoc.
Qed.

Lemma Shape_nsteps g0 o d n s s' :
  Shape g0 o s → nsteps (loop_step haversine d) n s s' → Shape g0 o s'.
Proof. intros Hs H. induction H; [done|]. eauto using Shape_step. Qed.

(** With the shape kept, an iteration returns in one of two ways only. *)
Lemma Shape_return g0 o d s r s' :
  Shape g0 o s → iteration haversine d s = Return r s' →
  same_edges g0 (world s') ∧
  ((r = Returned FloatInfinity ∧ _values (routes s) = [] ∧ s' = s)
   ∨ (∃ c p rest,
        heappop (_values (routes s)) = Some (mkRoute c p, rest)
        ∧ r = Returned (Tuple2 c p) ∧ s' = popped s rest
        ∧ route_shape g0 o (visited s) p ∧ last p = Some d ∧ value d ∉ visited s)).
Proof.
  intros (He & Ho & Hr) H.
  apply iteration_Return_inv in H as [(-> & Hnil & ->)|[(c & rest & Hpop & _)|H]].
  - split; [done|]. by left.
  - pose proof (heappop_perm _ _ _ Hpop) as Hperm.
    rewrite Hperm in Hr. simpl in Hr. apply Forall_cons in Hr as [Hp _].
    destruct Hp as (pre & a & b & Hp & _). by destruct pre.
  - destruct H as (c & p & rest & Hpop & Hlast & Hv & -> & ->).
    split; [done|]. right. exists c, p, rest. repeat split; try done.
    pose proof (heappop_perm _ _ _ Hpop) as Hperm.
    rewrite Hperm in Hr. simpl in Hr. by apply Forall_cons in Hr as [Hp _].
Qed.

(** The shape of every run of [dijkstra]. *)
Lemma dijkstra_run fuel g c o d r s' :
  dijkstra haversine fuel g c o d = Some (r, s') →
  ∃ n s, nsteps (loop_step haversine d) n (dijkstra_init haversine g c o) s
         ∧ Shape g o s ∧ iteration haversine d s = Return r s'.
Proof.
  intros H. apply while_routes_nsteps in H as (n & s & _ & Hn & Hret).
  exists n, s. split; [done|]. split; [|done].
  eapply Shape_nsteps; [apply Shape_init|done].
Qed.

Lemma dijkstra_returns fuel g c o d r s' :
  dijkstra haversine fuel g c o d = Some (r, s') →
  same_edges g (world s') ∧
  ((r = Returned FloatInfinity ∧ _values (routes s') = [])
   ∨ (∃ c p, r = Returned (Tuple2 c p) ∧ last p = Some d
        ∧ (∃ a, d ∈ adj g a) ∧ head p = Some o
        ∧ walk g (value <$> p) ∧ value d ≠ value o)).
Proof.
  intros H. apply dijkstra_run in H as (n & s & _ & Hs & Hret).
  destruct (Shape_return _ _ _ _ _ _ Hs Hret) as [He [(-> & Hnil & ->)|H]].
  - split; [done|]. by left.
  - destruct H as (q & p & rest & Hpop & -> & -> & Hp & Hlast & Hv).
    split; [done|]. right. exists q, p. split; [done|]. split; [done|].
    destruct (route_shape_last _ _ _ _ Hp) as (a & b & Hl & Hb).
    rewrite Hlast in Hl. injection Hl as <-.
    destruct Hp as (pre & a' & b' & -> & _ & Hh & Hw & _).
    split; [by exists (value a)|]. split; [done|]. split; [done|].
    destruct Hs as (_ & Ho & _). intros E. by rewrite E in Hv.
Qed.

End ShapeInvariant.

(** ** Optimality *)

Section Optimality.
Variable haversine : Qc * Qc → Qc * Qc → Q.
Variable g0 : Graph.
Variable o : AirportRef.
Hypothesis nonneg : nonneg_costs haversine g0.













End Optimality.

Section OptimalityOfDijkstra.
Variable haversine : Qc * Qc → Qc * Qc → Q.


End OptimalityOfDijkstra.

(** ** The triangle *)

Section Triangle.
Variable haversine : Qc * Qc → Qc * Qc → Q.





Lemma iteration_pop d s c p rest :
  heappop (_values (routes s)) = Some (mkRoute c p, rest) →
  iteration haversine d s
  = match last p with
    | None => Return (Raised IndexError) (popped s rest)
    | Some a =>
        if decide (value a ∈ visited s) then Continue (popped s rest)
        else if is_ a d then Return (Returned (Tuple2 c p)) (popped s rest)
        else Continue (settled haversine s c p rest a)
    end.
Proof.
  intros Hpop. unfold iteration, len, pop. rewrite Hpop.
  case_decide as Hlen.
  { apply nil_length_inv in Hlen. by rewrite Hlen in Hpop. }
  destruct (last p) as [a|]; [|done].
  case_decide; [done|]. destruct (is_ a d); [done|].
  unfold settled. destruct (neighbors (world s) a) as [ns g']. simpl.
  by destruct (fold_left _ ns _).
Qed.

Lemma iteration_settle d s c p rest a :
  heappop (_values (routes s)) = Some (mkRoute c p, rest) →
  last p = Some a → value a ∉ visited s → a ≠ d →
  iteration haversine d s = Continue (settled haversine s c p rest a).
Proof.
  intros Hpop Hlast Hv Hd. rewrite (iteration_pop _ _ _ _ _ Hpop), Hlast.
  rewrite decide_False by done. unfold is_. by rewrite bool_decide_false.
Qed.

Lemma iteration_arrived d s c p rest :
  heappop (_values (routes s)) = Some (mkRoute c p, rest) →
  last p = Some d → value d ∉ visited s →
  iteration haversine d s = Return (Returned (Tuple2 c p)) (popped s rest).
Proof.
  intros Hpop Hlast Hv. rewrite (iteration_pop _ _ _ _ _ Hpop), Hlast.
  rewrite decide_False by done. unfold is_. by rewrite bool_decide_true.
Qed.

Lemma iteration_stale d s c p rest a :
  heappop (_values (routes s)) = Some (mkRoute c p, rest) →
  last p = Some a → value a ∈ visited s →
  iteration haversine d s = Continue (popped s rest).
Proof.
  intros Hpop Hlast Hv. rewrite (iteration_pop _ _ _ _ _ Hpop), Hlast.
  by rewrite decide_True.
Qed.


End Triangle.

(** ** Building the graph *)

Lemma elem_of_set_add_value s x y :
  y ∈ value <$> set_add s x ↔ y ∈ value <$> s ∨ y = value x.
Proof.
  unfold set_add. case_decide as H.
  - split; [by left|]. by intros [?| ->].
  - rewrite fmap_app, elem_of_app. simpl. rewrite list_elem_of_singleton. done.
Qed.

Lemma elem_of_set_add s x n : n ∈ set_add s x → n ∈ s ∨ n = x.
Proof.
  unfold set_add. case_decide; [by left|].
  rewrite elem_of_app, list_elem_of_singleton. done.
Qed.

Lemma NoDup_set_add s x : NoDup (value <$> s) → NoDup (value <$> set_add s x).
Proof.
  intros H. unfold set_add. case_decide as Hx; [done|].
  rewrite fmap_app. simpl. apply NoDup_app. split; [done|]. split.
  - intros y Hy Hy'. apply list_elem_of_singleton in Hy' as ->. done.
  - apply NoDup_singleton.
Qed.

Lemma length_set_add s x : length (set_add s x) ≤ S (length s).
Proof.
  unfold set_add. case_decide; [lia|]. rewrite length_app. simpl. lia.
Qed.

Lemma add_neighbor_lookup d n1 n2 k :
  add_neighbor d n1 n2 !! k
  = if decide (k = value n1) then Some (set_add (default [] (d !! k)) n2) else d !! k.
Proof.
  unfold add_neighbor, getitem. case_decide as Hk.
  - subst. destruct (d !! value n1); by rewrite lookup_insert_eq.
  - destruct (d !! value n1); rewrite !lookup_insert_ne by done; done.
Qed.

Lemma adj_connect g a b k :
  adj (connect g a b) k
  = let s1 := if decide (k = value a) then set_add (adj g k) b else adj g k in
    if decide (k = value b) then set_add s1 a else s1.
Proof.
  unfold adj, connect. simpl. rewrite !add_neighbor_lookup.
  repeat case_decide; simpl; done.
Qed.

Lemma edge_connect g a b x y :
  edge (connect g a b) x y
  ↔ edge g x y ∨ (x = value a ∧ y = value b) ∨ (x = value b ∧ y = value a).
Proof.
  unfold edge. rewrite adj_connect. simpl.
  repeat case_decide; rewrite ?elem_of_set_add_value; naive_solver.
Qed.

Lemma elem_of_adj_connect g a b k n :
  n ∈ adj (connect g a b) k → n ∈ adj g k ∨ n = a ∨ n = b.
Proof.
  rewrite adj_connect. simpl.
  intros Hn. repeat case_decide; repeat (apply elem_of_set_add in Hn as [Hn| ->]); eauto.
Qed.

Lemma NoDup_adj_connect g a b :
  (∀ k, NoDup (value <$> adj g k)) → ∀ k, NoDup (value <$> adj (connect g a b) k).
Proof.
  intros H k. rewrite adj_connect. simpl.
  repeat case_decide; repeat apply NoDup_set_add; done.
Qed.

Lemma connect_is_Some g a b k :
  is_Some (_neighbors (connect g a b) !! k)
  ↔ is_Some (_neighbors g !! k) ∨ k = value a ∨ k = value b.
Proof.
  unfold connect. simpl. rewrite !add_neighbor_lookup.
  repeat case_decide; naive_solver.
Qed.

Lemma closed_connect g a b : closed g → closed (connect g a b).
Proof.
  intros H k n Hn. apply connect_is_Some.
  apply elem_of_adj_connect in Hn as [Hn|[->| ->]]; eauto.
Qed.

Lemma adj_init k : adj Graph_init k = [].
Proof. unfold adj, Graph_init. simpl. by rewrite lookup_empty. Qed.

Lemma closed_init : closed Graph_init.
Proof. intros k n Hn. rewrite adj_init in Hn. by apply not_elem_of_nil in Hn. Qed.

Lemma fold_connect_edge es g x y :
  edge (fold_left (λ g e, connect g e.1 e.2) es g) x y
  ↔ edge g x y
    ∨ ∃ e, e ∈ es ∧ ((x = value e.1 ∧ y = value e.2) ∨ (x = value e.2 ∧ y = value e.1)).
Proof.
  revert g. induction es as [|e es IH]; intros g; simpl.
  - split; [by left|]. intros [?|(e & He & _)]; [done|]. by apply not_elem_of_nil in He.
  - rewrite IH, edge_connect. split.
    + intros [[?|H]|(e' & He' & H)]; [by left|right..].
      * exists e. split; [apply list_elem_of_here|done].
      * exists e'. split; [by apply list_elem_of_further|done].
    + intros [?|(e' & He' & H)]; [by left; left|].
      apply elem_of_cons in He' as [->|He']; [by left; right|].
      right. by exists e'.
Qed.

Lemma fold_connect_closed es g :
  closed g → closed (fold_left (λ g e, connect g e.1 e.2) es g).
Proof.
  revert g. induction es as [|e es IH]; intros g Hg; simpl; [done|].
  by apply IH, closed_connect.
Qed.

Lemma fold_connect_objects es g k n :
  n ∈ adj (fold_left (λ g e, connect g e.1 e.2) es g) k →
  n ∈ adj g k ∨ ∃ e, e ∈ es ∧ (n = e.1 ∨ n = e.2).
Proof.
  revert g. induction es as [|e es IH]; intros g; simpl; [by left|].
  intros H. apply IH in H as [H|(e' & He' & H)].
  - apply elem_of_adj_connect in H as [H|H]; [by left|].
    right. exists e. split; [apply list_elem_of_here|done].
  - right. exists e'. split; [by apply list_elem_of_further|done].
Qed.

Lemma edge_build es x y :
  edge (build es) x y
  ↔ ∃ e, e ∈ es ∧ ((x = value e.1 ∧ y = value e.2) ∨ (x = value e.2 ∧ y = value e.1)).
Proof.
  unfold build. rewrite fold_connect_edge. unfold edge at 1. rewrite adj_init.
  split; [|by right]. intros [H|H]; [|done]. by apply not_elem_of_nil in H.
Qed.

Lemma closed_build es : closed (build es).
Proof. apply fold_connect_closed, closed_init. Qed.

(** The flights that [load] keeps, as pairs of airport objects. *)
Lemma load_flight_connect T g f :
  load_flight T g f
  = match known_flight T f with
    | Some e => connect g e.1 e.2
    | None => g
    end.
Proof.
  unfold load_flight, known_flight.
  destruct (T !! origin f); simpl; [|done]. by destruct (T !! destination f).
Qed.

Lemma fold_load_build T fl g :
  fold_left (load_flight T) fl g
  = fold_left (λ g e, connect g e.1 e.2) (omap (known_flight T) fl) g.
Proof.
  revert g. induction fl as [|f fl IH]; intros g; simpl; [done|].
  rewrite IH, load_flight_connect. by destruct (known_flight T f).
Qed.

Lemma load_build T fl : load T fl = build (omap (known_flight T) fl).
Proof. apply fold_load_build. Qed.

(** ** The cache, call by call *)

Section CacheCalls.
Variable haversine : Qc * Qc → Qc * Qc → Q.

Lemma cache_del_not_in key es : key ∉ es.*1 → cache_del key es = es.
Proof.
  unfold cache_del. induction es as [|[k v] es IH]; simpl; [done|].
  rewrite not_elem_of_cons. intros [Hk Hes].
  rewrite filter_cons, decide_True by (simpl; congruence). by rewrite IH.
Qed.

Lemma cache_del_keys key es : key ∉ (cache_del key es).*1.
Proof.
  unfold cache_del. intros H. apply list_elem_of_fmap in H as ([k v] & -> & H).
  apply list_elem_of_filter in H as [H _]. by apply H.
Qed.

Lemma take_keys_not_in (key : Airport * Airport) n (es : list (Airport * Airport * Q)) :
  key ∉ es.*1 → key ∉ (take n es).*1.
Proof.
  intros H Hin. apply H. rewrite fmap_take in Hin.
  by eapply subseteq_take.
Qed.

(** After any call, the key of that call sits at the front of the cache
    and nowhere else. *)
Lemma get_price_front c a b :
  ∃ rest, entries (get_price haversine c a b).2
          = ((value a, value b), (get_price haversine c a b).1) :: rest
          ∧ (value a, value b) ∉ rest.*1.
Proof.
  unfold get_price. destruct (cache_get _ _) as [v|] eqn:E; simpl.
  - eexists. split; [done|]. apply cache_del_keys.
  - eexists. split; [done|]. apply take_keys_not_in. by apply cache_get_None.
Qed.

(** A second call with the same arguments in the same order is a hit. *)
Lemma get_price_again c a b :
  let r1 := get_price haversine c a b in
  let r2 := get_price haversine r1.2 a b in
  r2.1 = r1.1 ∧ hits r2.2 = S (hits r1.2) ∧ misses r2.2 = misses r1.2
  ∧ entries r2.2 = entries r1.2.
Proof.
  intros r1 r2. destruct (get_price_front c a b) as (rest & Hfront & Hrest).
  fold r1 in Hfront. unfold r2, get_price at 1 2 3 4. rewrite Hfront.
  rewrite cache_get_head. simpl. repeat split; try done.
  unfold cache_del at 1. rewrite filter_cons, decide_False by (simpl; by intros ?).
  fold (cache_del (value a, value b) rest). by rewrite cache_del_not_in.
Qed.

(** A call with the arguments swapped looks for another key: unless that
    key was cached before, it is a miss, the body runs again and the cache
    then holds one entry for each order. *)
Lemma get_price_swapped c a b :
  value a ≠ value b →
  cache_get (value b, value a) (entries c) = None →
  let r1 := get_price haversine c a b in
  let r2 := get_price haversine r1.2 b a in
  r2.1 = get_price_body haversine b a cents_per_km_default
  ∧ hits r2.2 = hits r1.2 ∧ misses r2.2 = S (misses r1.2)
  ∧ ∃ rest, entries r2.2 = ((value b, value a), r2.1) :: ((value a, value b), r1.1) :: rest.
Proof.
  intros Hab Hnone r1 r2.
  assert (Hmiss : cache_get (value b, value a) (entries r1.2) = None).
  { apply cache_get_None. apply cache_get_None in Hnone.
    unfold r1, get_price. destruct (cache_get (value a, value b) _); simpl.
    - rewrite not_elem_of_cons. split; [congruence|].
      intros H. apply Hnone. apply list_elem_of_fmap in H as (e & -> & H).
      apply list_elem_of_filter in H as [_ H]. by apply list_elem_of_fmap_2.
    - rewrite not_elem_of_cons. split; [congruence|]. by apply take_keys_not_in. }
  destruct (get_price_front c a b) as (rest & Hfront & _). fold r1 in Hfront.
  assert (Hr2 : r2 = (get_price_body haversine b a cents_per_km_default,
                       mkCache (take maxsize
                                  ((value b, value a,
                                    get_price_body haversine b a cents_per_km_default)
                                   :: entries r1.2))
                               (hits r1.2) (S (misses r1.2)))).
  { unfold r2, get_price. by rewrite Hmiss. }
  rewrite Hr2. simpl. repeat split; try done.
  rewrite Hfront. simpl. by eexists.
Qed.

Lemma get_price_NoDup c a b :
  NoDup (cache_keys c) → NoDup (cache_keys (get_price haversine c a b).2).
Proof.
  unfold cache_keys, get_price. intros Hnd.
  destruct (cache_get _ _) as [v|] eqn:E; simpl.
  - apply NoDup_cons. split; [apply cache_del_keys|].
    unfold cache_del. apply (NoDup_fmap_2_strong fst).
    + intros [k1 v1] [k2 v2] H1 H2 Hk. simpl in Hk. subst k2.
      apply list_elem_of_filter in H1 as [_ H1]. apply list_elem_of_filter in H2 as [_ H2].
      f_equal. clear E. revert H1 H2 Hnd. clear.
      induction (entries c) as [|[k w] es IH]; intros H1 H2 Hnd; [by apply not_elem_of_nil in H1|].
      simpl in Hnd. apply NoDup_cons in Hnd as [Hk Hnd].
      apply elem_of_cons in H1 as [H1|H1], H2 as [H2|H2]; simplify_eq; try done.
      * destruct Hk. by apply (list_elem_of_fmap_2 fst _ (k, v2)).
      * destruct Hk. by apply (list_elem_of_fmap_2 fst _ (k, v1)).
      * by apply IH.
    + apply NoDup_filter. eapply NoDup_fmap_1. done.
  - apply cache_get_None in E.
    assert (NoDup ((value a, value b) :: (entries c).*1)) as H by by apply NoDup_cons.
    change (NoDup (take maxsize ((value a, value b, get_price_body haversine a b
                                     cents_per_km_default) :: entries c)).*1).
    rewrite fmap_take. simpl fmap. eapply sublist_NoDup; [done|apply sublist_take].
Qed.

Lemma get_price_size c a b :
  length (entries c) ≤ maxsize → length (entries (get_price haversine c a b).2) ≤ maxsize.
Proof.
  unfold get_price. intros H. destruct (cache_get _ _) as [v|] eqn:E.
  - apply cache_get_Some in E. cbn [snd entries length].
    assert (length (cache_del (value a, value b) (entries c)) < length (entries c)); [|lia].
    unfold cache_del. apply list_elem_of_lookup in E as [i Hi].
    apply (length_filter_lt _ _ (value a, value b, v)); [by eapply list_elem_of_lookup_2|].
    simpl. intros Hne. by apply Hne.
  - cbn [snd entries]. rewrite length_take. lia.
Qed.

End CacheCalls.

(** ** The graph is only read *)

Section ReadOnly.
Variable haversine : Qc * Qc → Qc * Qc → Q.

Lemma world_step_closed g o d s s' :
  closed g → Shape g o s → world s = g → loop_step haversine d s s' → world s' = g.
Proof.
  intros Hcl (_ & _ & Hr) Hw H.
  apply iteration_Continue_inv in H as (c & p & rest & a & Hpop & Hlast & H).
  destruct H as [[_ ->]|(_ & _ & ->)]; simpl; [done|].
  pose proof (heappop_perm _ _ _ Hpop) as Hperm.
  rewrite Hperm in Hr. simpl in Hr. apply Forall_cons in Hr as [Hp _].
  destruct (route_shape_last _ _ _ _ Hp) as (a0 & b & Hl & Hb).
  rewrite Hlast in Hl. injection Hl as <-.
  rewrite Hw. apply neighbors_present. by eapply Hcl.
Qed.

Lemma world_nsteps_closed g o d n s s' :
  closed g → Shape g o s → world s = g → nsteps (loop_step haversine d) n s s' →
  Shape g o s' ∧ world s' = g.
Proof.
  intros Hcl Hs Hw H. induction H as [|n s1 s2 s3 H1 _ IH]; [done|].
  apply IH; [by eapply Shape_step|by eapply world_step_closed].
Qed.

Lemma world_unchanged fuel g c o d r s' :
  closed g → is_Some (_neighbors g !! value o) →
  dijkstra haversine fuel g c o d = Some (r, s') → world s' = g.
Proof.
  intros Hcl Ho H. apply while_routes_nsteps in H as (n & s & _ & Hn & Hret).
  apply (world_nsteps_closed g o) in Hn as [Hs Hw]; [|done|apply Shape_init|].
  - apply iteration_Return_inv in Hret as [(_ & _ & ->)|[(? & ? & _ & _ & ->)|H]]; try done.
    by destruct H as (? & ? & ? & _ & _ & _ & _ & ->).
  - destruct (dijkstra_init_fields haversine g c o) as (_ & -> & _).
    by apply neighbors_present.
Qed.

End ReadOnly.

(** ** The size of the graph *)

Lemma sum_map_insert (f : Airport * list AirportRef → nat)
    (d : gmap Airport (list AirportRef)) k x :
  sum_list_with f (map_to_list (<[k := x]> d))
  = f (k, x) + sum_list_with f (map_to_list (delete k d)).
Proof.
  rewrite <- insert_delete_eq, map_to_list_insert by apply lookup_delete_eq. done.
Qed.

Lemma sum_map_lookup (f : Airport * list AirportRef → nat)
    (d : gmap Airport (list AirportRef)) k x :
  d !! k = Some x →
  sum_list_with f (map_to_list d) = f (k, x) + sum_list_with f (map_to_list (delete k d)).
Proof. intros H. by rewrite <- (map_to_list_delete _ _ _ H). Qed.

Lemma degree_add_neighbor d n1 n2 :
  total_degree (mkGraph (add_neighbor d n1 n2)) ≤ S (total_degree (mkGraph d)).
Proof.
  unfold total_degree, add_neighbor, getitem. simpl.
  destruct (d !! value n1) as [s|] eqn:E.
  - rewrite sum_map_insert, (sum_map_lookup _ d _ _ E). simpl.
    pose proof (length_set_add s n2). lia.
  - rewrite insert_insert_eq, map_to_list_insert by done. simpl. lia.
Qed.

Lemma degree_connect g a b : total_degree (connect g a b) ≤ 2 + total_degree g.
Proof.
  unfold connect.
  pose proof (degree_add_neighbor (add_neighbor (_neighbors g) a b) b a).
  pose proof (degree_add_neighbor (_neighbors g) a b).
  destruct g as [d]. simpl in *. lia.
Qed.

Lemma degree_fold_connect es g :
  total_degree (fold_left (λ g e, connect g e.1 e.2) es g)
  ≤ 2 * length es + total_degree g.
Proof.
  revert g. induction es as [|e es IH]; intros g; simpl; [lia|].
  pose proof (IH (connect g e.1 e.2)). pose proof (degree_connect g e.1 e.2). lia.
Qed.

Lemma degree_build es : total_degree (build es) ≤ 2 * length es.
Proof.
  pose proof (degree_fold_connect es Graph_init) as H.
  unfold build. unfold total_degree at 2 in H. simpl in H.
  rewrite map_to_list_empty in H. simpl in H. lia.
Qed.

(** ** Facts about the sample data *)

Lemma squared_degrees_nonneg p q : (0 <= squared_degrees p q)%Q.
Proof.
  unfold squared_degrees. simpl.
  generalize ((p.1 - q.1)%Qc : Q), ((p.2 - q.2)%Qc : Q). intros x y. nra.
Qed.

Lemma squared_degrees_costs g : nonneg_costs squared_degrees g.
Proof.
  intros a b _. unfold direct_price, cents_per_km_default.
  pose proof (squared_degrees_nonneg (latitude a, longitude a) (latitude b, longitude b)).
  lra.
Qed.

Lemma adj_island_VLC : adj island (value VLC) = [JFK].
Proof. by vm_compute. Qed.

Lemma adj_island_JFK : adj island (value JFK) = [VLC].
Proof. by vm_compute. Qed.

(** From Valencia the walks of [island] stay between Valencia and New York. *)
Lemma island_walks q x t :
  walk island q → head q = Some x → last q = Some t →
  x = value VLC ∨ x = value JFK → t = value VLC ∨ t = value JFK.
Proof.
  revert x. induction q as [|a [|b q] IH]; intros x Hw Hh Hl Hx.
  - done.
  - simpl in *. congruence.
  - injection Hh as ->. destruct Hw as [He Hw]. apply (IH b); try done.
    unfold edge in He. destruct Hx as [-> | ->].
    + rewrite adj_island_VLC in He. apply list_elem_of_singleton in He. by right.
    + rewrite adj_island_JFK in He. apply list_elem_of_singleton in He. by left.
Qed.

Lemma island_unreachable q : ¬ connects island q (value VLC) (value PDX).
Proof.
  intros (Hw & Hh & Hl).
  destruct (island_walks q _ _ Hw Hh Hl) as [E|E]; [by left|discriminate E..].
Qed.

(** ** Runs that end without a route *)

Section NoRoute.
Variable haversine : Qc * Qc → Qc * Qc → Q.

Lemma dijkstra_no_tuple fuel g c o d :
  total_degree g < fuel →
  (∀ price path s,
     dijkstra haversine fuel g c o d ≠ Some (Returned (Tuple2 price path), s)) →
  ∃ s, dijkstra haversine fuel g c o d = Some (Returned FloatInfinity, s)
       ∧ _values (routes s) = [].
Proof.
  intros Hfuel Hno.
  destruct (dijkstra_terminates haversine fuel g c o d Hfuel) as [[r s] Hrun].
  destruct (dijkstra_returns haversine _ _ _ _ _ _ _ Hrun) as [_ [[-> Hnil]|H]].
  - by exists s.
  - destruct H as (price & path & -> & _). by destruct (Hno price path s).
Qed.

(** A returned tuple holds a walk from the origin to the destination. *)
Lemma dijkstra_tuple_walk fuel g c o d price path s :
  dijkstra haversine fuel g c o d = Some (Returned (Tuple2 price path), s) →
  connects g (value <$> path) (value o) (value d) ∧ value d ≠ value o.
Proof.
  intros Hrun.
  destruct (dijkstra_returns haversine _ _ _ _ _ _ _ Hrun) as [_ [[? _]|H]]; [done|].
  destruct H as (q & p & [= <- <-] & Hlast & _ & Hh & Hw & Hne).
  split; [|done]. split; [done|]. split.
  - destruct path; simpl in *; congruence.
  - by rewrite fmap_last, Hlast.
Qed.

End NoRoute.

(** * The claims *)



(** C2, as the code has it: when origin and destination are the same
    node, the search returns [float('infinity')] and not the route of cost
    0 with the path [[X]]: the origin is in [visited] before the loop
    starts, so no route that ends at it is ever examined. *)
Theorem dijkstra_same_node_infinity (haversine : Qc * Qc → Qc * Qc → Q) fuel g c X :
  total_degree g < fuel →
  ∃ s, dijkstra haversine fuel g c X X = Some (Returned FloatInfinity, s).
Proof.
  intros Hfuel.
  destruct (dijkstra_no_tuple haversine fuel g c X X Hfuel) as (s & Hs & _); [|by exists s].
  intros price path s Hrun.
  by destruct (dijkstra_tuple_walk haversine _ _ _ _ _ _ _ _ Hrun) as [_ Hne].
Qed.

Lemma dijkstra_same_node_infinity_witness :
  total_degree triangle < 10
  ∧ ∃ s, dijkstra squared_degrees 10 triangle cache_clear VLC VLC
         = Some (Returned FloatInfinity, s).
Proof.
  assert (total_degree triangle < 10) as H by (vm_compute; lia).
  split; [exact H|]. exact (dijkstra_same_node_infinity squared_degrees 10 triangle
                              cache_clear VLC H).
Defined.

(** C3: when no walk of the graph leads from the origin to the
    destination, the search ends, with any fuel above the number of
    entries in the neighbour sets, without raising and with the value
    [float('infinity')], its report that no route was found. *)
Theorem dijkstra_unreachable (haversine : Qc * Qc → Qc * Qc → Q) fuel g c o d :
  (∀ q, ¬ connects g q (value o) (value d)) →
  total_degree g < fuel →
  ∃ s, dijkstra haversine fuel g c o d = Some (Returned FloatInfinity, s).
Proof.
  intros Hun Hfuel.
  destruct (dijkstra_no_tuple haversine fuel g c o d Hfuel) as (s & Hs & _); [|by exists s].
  intros price path s Hrun. apply (Hun (value <$> path)).
  by destruct (dijkstra_tuple_walk haversine _ _ _ _ _ _ _ _ Hrun) as [Hwalk _].
Qed.

Lemma dijkstra_unreachable_witness :
  (∀ q, ¬ connects island q (value VLC) (value PDX))
  ∧ total_degree island < 5
  ∧ ∃ s, dijkstra squared_degrees 5 island cache_clear VLC PDX
         = Some (Returned FloatInfinity, s).
Proof.
  assert (total_degree island < 5) as H by (vm_compute; lia).
  split; [exact island_unreachable|]. split; [exact H|].
  exact (dijkstra_unreachable squared_degrees 5 island cache_clear VLC PDX
           island_unreachable H).
Defined.

(** C4, as the code has it: the cache is keyed by the pair of arguments in
    the order of the call.  A second call with the same arguments in the
    same order is a hit: it returns the stored price, counts one hit and
    adds no entry.  A call with the arguments swapped, for two different
    airports, looks for another key: unless that key is in the cache
    already it is a miss, the body runs again and the cache then holds one
    entry for each of the two orders.  The keys of the cache stay pairwise
    different as ordered pairs. *)
Theorem get_price_ordered_key (haversine : Qc * Qc → Qc * Qc → Q) c a b :
  (let r1 := get_price haversine c a b in
   let r2 := get_price haversine r1.2 a b in
   r2.1 = r1.1 ∧ hits r2.2 = S (hits r1.2) ∧ misses r2.2 = misses r1.2
   ∧ entries r2.2 = entries r1.2)
  ∧ (value a ≠ value b →
     cache_get (value b, value a) (entries c) = None →
     let r1 := get_price haversine c a b in
     let r2 := get_price haversine r1.2 b a in
     r2.1 = get_price_body haversine b a cents_per_km_default
     ∧ hits r2.2 = hits r1.2 ∧ misses r2.2 = S (misses r1.2)
     ∧ ∃ rest, entries r2.2
               = ((value b, value a), r2.1) :: ((value a, value b), r1.1) :: rest)
  ∧ (NoDup (cache_keys c) → NoDup (cache_keys (get_price haversine c a b).2)).
Proof.
  split; [apply get_price_again|]. split; [apply get_price_swapped|].
  apply get_price_NoDup.
Qed.

Lemma get_price_ordered_key_witness :
  value VLC ≠ value PDX
  ∧ cache_get (value PDX, value VLC) (entries cache_clear) = None
  ∧ misses (get_price squared_degrees
              (get_price squared_degrees cache_clear VLC PDX).2 PDX VLC).2
    = S (misses (get_price squared_degrees cache_clear VLC PDX).2).
Proof.
  assert (value VLC ≠ value PDX) as Hne by done.
  split; [exact Hne|]. split; [reflexivity|].
  exact (proj1 (proj2 (proj2 (proj1 (proj2
           (get_price_ordered_key squared_degrees cache_clear VLC PDX)) Hne eq_refl)))).
Defined.

(** C4 as stated fails: after [get_price(VLC, PDX)] on an empty cache,
    [get_price(PDX, VLC)] is counted as a second miss and no hit, and the
    cache holds two entries for the one unordered pair. *)
Lemma get_price_swapped_is_a_miss :
  let c1 := (get_price squared_degrees cache_clear VLC PDX).2 in
  let c2 := (get_price squared_degrees c1 PDX VLC).2 in
  hits c2 = 0 ∧ misses c2 = 2
  ∧ cache_keys c2 = [(value PDX, value VLC); (value VLC, value PDX)].
Proof. by vm_compute. Qed.

(** C5, as the code has it: a search never changes the neighbour set of a
    node; all it can do to the mapping is add a node with an empty set,
    which the [defaultdict] does when a node without an entry is looked
    up.  When the origin and every node that occurs in a neighbour set
    have an entry, as in every graph made by [connect] once the origin is
    in it, the mapping after the search is the mapping before it. *)
Theorem dijkstra_graph_frame (haversine : Qc * Qc → Qc * Qc → Q) fuel g c o d r s :
  dijkstra haversine fuel g c o d = Some (r, s) →
  same_edges g (world s)
  ∧ (∀ k, adj (world s) k = adj g k)
  ∧ (closed g → is_Some (_neighbors g !! value o) → world s = g).
Proof.
  intros Hrun.
  destruct (dijkstra_returns haversine _ _ _ _ _ _ _ Hrun) as [He _].
  split; [done|]. split.
  - intros k. by apply same_edges_adj.
  - intros Hcl Ho. by eapply world_unchanged.
Qed.

Lemma dijkstra_graph_frame_witness :
  ∃ r s, dijkstra squared_degrees 10 triangle cache_clear VLC PDX = Some (r, s)
         ∧ same_edges triangle (world s).
Proof.
  assert (total_degree triangle < 10) as Hfuel by (vm_compute; lia).
  destruct (dijkstra_terminates squared_degrees 10 triangle cache_clear VLC PDX Hfuel)
    as [[r s] E].
  exists r, s. split; [exact E|].
  exact (proj1 (dijkstra_graph_frame squared_degrees 10 triangle cache_clear
                  VLC PDX r s E)).
Defined.

(** C5 as stated fails: a search from an origin that has no entry in the
    graph leaves the graph with one more key. *)
Lemma dijkstra_adds_origin_entry :
  ∃ r s, dijkstra squared_degrees 10 (build [(JFK, PDX)]) cache_clear VLC PDX = Some (r, s)
         ∧ _neighbors (build [(JFK, PDX)]) !! value VLC = None
         ∧ _neighbors (world s) !! value VLC = Some []
         ∧ world s ≠ build [(JFK, PDX)].
Proof.
  assert (_neighbors (build [(JFK, PDX)]) !! value VLC = None) as Hbefore by by vm_compute.
  assert (match dijkstra squared_degrees 10 (build [(JFK, PDX)]) cache_clear VLC PDX with
          | Some (_, s) => _neighbors (world s) !! value VLC
          | None => None
          end = Some []) as Hafter by by vm_compute.
  destruct (dijkstra squared_degrees 10 (build [(JFK, PDX)]) cache_clear VLC PDX)
    as [[r s]|]; [|discriminate Hafter].
  exists r, s. split; [reflexivity|]. split; [exact Hbefore|]. split; [exact Hafter|].
  cbv beta iota in Hafter. intros Heq. rewrite Heq, Hbefore in Hafter. discriminate Hafter.
Qed.

(** C6: the search terminates.  The number of entries in the neighbour
    sets, which is at most twice the number of [connect] calls that made
    the graph, bounds the number of iterations and the length of the queue
    together; every iteration that goes round the loop again either drops
    the route it popped and leaves [visited] as it is, or adds a node that
    was not visited to [visited]. *)
Theorem dijkstra_terminates_bounded (haversine : Qc * Qc → Qc * Qc → Q) g c o d :
  (∀ fuel, total_degree g < fuel → is_Some (dijkstra haversine fuel g c o d))
  ∧ (∀ n s,
       nsteps (loop_step haversine d) n (dijkstra_init haversine g c o) s →
       n + len (routes s) ≤ total_degree g
       ∧ ∀ s', loop_step haversine d s s' →
           (S (len (routes s')) = len (routes s) ∧ visited s' = visited s)
           ∨ (∃ a, (a ∉ visited s) ∧ visited s' = {[a]} ∪ visited s))
  ∧ (∀ es, total_degree (build es) ≤ 2 * length es).
Proof.
  split; [intros fuel; apply dijkstra_terminates|]. split; [|apply degree_build].
  intros n s Hn. split.
  - pose proof (nsteps_measure haversine d n _ _ Hn) as H.
    pose proof (measure_init haversine g c o). unfold measure in H at 1. lia.
  - intros s' Hstep.
    apply iteration_Continue_inv in Hstep as (q & p & rest & a & Hpop & Hlast & H).
    destruct H as [[Hv ->]|(Hv & _ & ->)].
    + left. split; [|done]. apply heappop_length in Hpop. unfold len. simpl. lia.
    + right. by exists (value a).
Qed.

Lemma dijkstra_terminates_bounded_witness :
  total_degree triangle < 7
  ∧ is_Some (dijkstra squared_degrees 7 triangle cache_clear VLC PDX).
Proof.
  assert (total_degree triangle < 7) as H by (vm_compute; lia).
  split; [exact H|].
  exact (proj1 (dijkstra_terminates_bounded squared_degrees triangle cache_clear VLC PDX)
           7 H).
Defined.

(** C7: [load] drops every flight one of whose codes is not a key of the
    airport table and connects the two airports of every other flight: the
    graph it builds is the graph built from the flights with two known
    codes, and two nodes are connected in it exactly when some flight with
    two known codes joins them, in one direction or the other. *)
Theorem load_skips_unknown (AIRPORTS : gmap string AirportRef) (flights : list Flight) :
  load AIRPORTS flights = build (omap (known_flight AIRPORTS) flights)
  ∧ ∀ x y,
      edge (load AIRPORTS flights) x y
      ↔ ∃ f o d,
          f ∈ flights ∧ AIRPORTS !! origin f = Some o ∧ AIRPORTS !! destination f = Some d
          ∧ ((x = value o ∧ y = value d) ∨ (x = value d ∧ y = value o)).
Proof.
  split; [apply load_build|]. intros x y. rewrite load_build, edge_build. split.
  - intros ([o d] & He & H). apply list_elem_of_omap in He as (f & Hf & Hk).
    exists f, o, d. split; [done|]. unfold known_flight in Hk.
    destruct (AIRPORTS !! origin f) as [o'|]; simpl in Hk; [|done].
    destruct (AIRPORTS !! destination f) as [d'|]; simpl in Hk; [|done].
    by injection Hk as -> ->.
  - intros (f & o & d & Hf & Ho & Hd & H). exists (o, d). split; [|done].
    apply list_elem_of_omap. exists f. split; [done|].
    unfold known_flight. by rewrite Ho, Hd.
Qed.

(** C8: [neighbors] has a result for every graph and every node.  It
    yields the neighbour set recorded for the node, which in a graph made
    by [connect] holds exactly the nodes that some call connected to it,
    and it yields nothing for a node without an entry and for a node that
    no [connect] call mentioned. *)
Theorem neighbors_never_fails g node :
  (neighbors g node).1 = adj g (value node)
  ∧ (_neighbors g !! value node = None → (neighbors g node).1 = [])
  ∧ (∀ es y,
       y ∈ value <$> (neighbors (build es) node).1
       ↔ ∃ e, e ∈ es ∧ ((value node = value e.1 ∧ y = value e.2)
                        ∨ (value node = value e.2 ∧ y = value e.1)))
  ∧ (∀ es,
       (∀ e, e ∈ es → value node ≠ value e.1 ∧ value node ≠ value e.2) →
       (neighbors (build es) node).1 = []).
Proof.
  split; [apply neighbors_fst|]. split.
  { intros H. rewrite neighbors_fst. unfold adj. by rewrite H. }
  split.
  { intros es y. rewrite neighbors_fst. apply edge_build. }
  intros es Hes. rewrite neighbors_fst.
  destruct (adj (build es) (value node)) as [|n ns] eqn:E; [done|].
  assert (edge (build es) (value node) (value n)) as He.
  { unfold edge. rewrite E. simpl. apply list_elem_of_here. }
  apply edge_build in He as (e & He & H). destruct (Hes e He). naive_solver.
Qed.

Lemma neighbors_never_fails_witness :
  _neighbors island !! value PDX = None ∧ (neighbors island PDX).1 = [].
Proof.
  assert (_neighbors island !! value PDX = None) as H by (vm_compute; reflexivity).
  split; [exact H|].
  exact (proj1 (proj2 (neighbors_never_fails island PDX)) H).
Defined.

(** C9: [dijkstra] returns a tuple only for a popped node that is the very
    object passed as destination, and that object then sits in a
    neighbour set of the graph.  So when the destination is no object of
    any neighbour set, be it equal to one of them and connected to the
    origin, the queue runs empty and the search returns
    [float('infinity')]. *)
Theorem dijkstra_arrival_by_identity (haversine : Qc * Qc → Qc * Qc → Q) fuel g c o d :
  (∀ price path s,
     dijkstra haversine fuel g c o d = Some (Returned (Tuple2 price path), s) →
     last path = Some d ∧ ∃ k, d ∈ adj g k)
  ∧ ((∀ k, d ∉ adj g k) →
     total_degree g < fuel →
     ∃ s, dijkstra haversine fuel g c o d = Some (Returned FloatInfinity, s)
          ∧ _values (routes s) = []).
Proof.
  split.
  - intros price path s Hrun.
    destruct (dijkstra_returns haversine _ _ _ _ _ _ _ Hrun) as [_ [[? _]|H]]; [done|].
    by destruct H as (q & p & [= <- <-] & Hlast & Hin & _).
  - intros Hno Hfuel. apply dijkstra_no_tuple; [done|].
    intros price path s Hrun.
    destruct (dijkstra_returns haversine _ _ _ _ _ _ _ Hrun) as [_ [[? _]|H]]; [done|].
    destruct H as (q & p & _ & _ & [k Hk] & _). by apply (Hno k).
Qed.

Lemma triangle_objects k : PDX_copy ∉ adj triangle k.
Proof.
  unfold triangle. rewrite load_build. intros H.
  apply fold_connect_objects in H as [H|(e & He & H)].
  - rewrite adj_init in H. by apply not_elem_of_nil in H.
  - vm_compute in He. repeat (apply elem_of_cons in He as [->|He]);
      [destruct H as [H|H]; discriminate H..|by apply not_elem_of_nil in He].
Qed.

Lemma dijkstra_arrival_by_identity_witness :
  value PDX_copy = value PDX
  ∧ connects triangle [value VLC; value PDX] (value VLC) (value PDX_copy)
  ∧ (∀ k, PDX_copy ∉ adj triangle k)
  ∧ ∃ s, dijkstra squared_degrees 10 triangle cache_clear VLC PDX_copy
         = Some (Returned FloatInfinity, s) ∧ _values (routes s) = [].
Proof.
  assert (total_degree triangle < 10) as Hfuel by (vm_compute; lia).
  split; [reflexivity|]. split.
  { split; [|split; reflexivity]. split; [|exact I].
    unfold edge. vm_compute. apply list_elem_of_further, list_elem_of_here. }
  split; [exact triangle_objects|].
  exact (proj2 (dijkstra_arrival_by_identity squared_degrees 10 triangle cache_clear
                  VLC PDX_copy) triangle_objects Hfuel).
Defined.



(** * Further properties *)

(** ** The search finds what can be reached *)

Section Completeness.
Variable haversine : Qc * Qc → Qc * Qc → Q.

Lemma iteration_exhausted d s :
  _values (routes s) = [] → iteration haversine d s = Return (Returned FloatInfinity) s.
Proof.
  intros H. unfold iteration, len. rewrite H. by rewrite decide_True.
Qed.

Lemma Covered_init g c o :
  Covered g (dijkstra_init haversine g c o).
Proof.
  destruct (dijkstra_init_fields haversine g c o) as (Hv & _ & Hr & _).
  intros v w Hvis Hvw _. rewrite Hv in Hvis. apply elem_of_singleton in Hvis as ->.
  rewrite Hr, push_first_paths, neighbors_fst. simpl.
  unfold edge in Hvw. apply list_elem_of_fmap in Hvw as (b & -> & Hb).
  exists [o; b], b. split; [|done]. apply list_elem_of_fmap. by exists b.
Qed.

Lemma Covered_step g0 o d s s' :
  Shape g0 o s → Covered g0 s → loop_step haversine d s s' → Covered g0 s'.
Proof.
  intros (He & _ & _) Hcov H.
  apply iteration_Continue_inv in H as (c & p & rest & a & Hpop & Hlast & H).
  pose proof (heappop_perm _ _ _ Hpop) as Hperm.
  destruct H as [[Hv ->]|(Hv & Hd & ->)]; intros v w Hvis Hvw Hw; simpl in *.
  - destruct (Hcov v w Hvis Hvw Hw) as (q & b & Hin & Hl & Hb).
    exists q, b. split; [|done].
    rewrite Hperm in Hin. simpl in Hin. apply elem_of_cons in Hin as [->|Hin]; [|done].
    congruence.
  - rewrite relax_paths, neighbors_fst, (same_edges_adj _ _ _ He). simpl.
    apply not_elem_of_union in Hw as [Hwa Hw]. apply not_elem_of_singleton in Hwa.
    apply elem_of_union in Hvis as [Hvis|Hvis].
    + apply elem_of_singleton in Hvis as ->.
      unfold edge in Hvw. apply list_elem_of_fmap in Hvw as (b & -> & Hb).
      exists (p ++ [b]), b. split; [|by rewrite last_snoc].
      apply elem_of_app. right. apply list_elem_of_fmap. exists b. split; [done|].
      by apply list_elem_of_filter.
    + destruct (Hcov v w Hvis Hvw Hw) as (q & b & Hin & Hl & Hb).
      exists q, b. split; [|done].
      rewrite Hperm in Hin. simpl in Hin. apply elem_of_cons in Hin as [->|Hin].
      * congruence.
      * apply elem_of_app. by left.
Qed.

Lemma Passed_init g c o d : Passed g o d (dijkstra_init haversine g c o).
Proof.
  destruct (dijkstra_init_fields haversine g c o) as (Hv & _).
  intros v Hvis. rewrite Hv in Hvis. apply elem_of_singleton in Hvis. by left.
Qed.

Lemma Passed_step g0 o d s s' :
  Shape g0 o s → Passed g0 o d s → loop_step haversine d s s' → Passed g0 o d s'.
Proof.
  intros (_ & _ & Hr) Hpas H.
  apply iteration_Continue_inv in H as (c & p & rest & a & Hpop & Hlast & H).
  destruct H as [[Hv ->]|(Hv & Hd & ->)]; [done|].
  pose proof (heappop_perm _ _ _ Hpop) as Hperm.
  rewrite Hperm in Hr. simpl in Hr. apply Forall_cons in Hr as [Hp _].
  destruct (route_shape_last _ _ _ _ Hp) as (a0 & b & Hl & Hb).
  rewrite Hlast in Hl. injection Hl as <-.
  intros v Hvis. simpl in Hvis. apply elem_of_union in Hvis as [Hvis|Hvis].
  - apply elem_of_singleton in Hvis as ->. right. by exists (value a0), a.
  - by apply Hpas.
Qed.

Lemma search_invariants_nsteps g0 o d n s s' :
  Shape g0 o s → Covered g0 s → Passed g0 o d s →
  nsteps (loop_step haversine d) n s s' →
  Shape g0 o s' ∧ Covered g0 s' ∧ Passed g0 o d s'.
Proof.
  intros Hs Hc Hp H. induction H as [|n s1 s2 s3 H1 _ IH]; [done|].
  apply IH; eauto using Shape_step, Covered_step, Passed_step.
Qed.

(** Once no route is queued, every walk from a visited node stays among
    the visited nodes. *)
Lemma Covered_closed g0 s q u t :
  Covered g0 s → _values (routes s) = [] →
  connects g0 q u t → u ∈ visited s → t ∈ visited s.
Proof.
  intros Hcov Hnil. revert u.
  induction q as [|x [|y q] IH]; intros u (Hw & Hh & Hl) Hu.
  - done.
  - simpl in *. congruence.
  - injection Hh as ->. destruct Hw as [Hxy Hw].
    apply (IH y); [done|].
    destruct (decide (y ∈ visited s)) as [Hy|Hy]; [done|].
    destruct (Hcov u y Hu Hxy Hy) as (p & b & Hin & _).
    rewrite Hnil in Hin. by apply not_elem_of_nil in Hin.
Qed.

Lemma dijkstra_finds fuel g c o d q :
  connects g q (value o) (value d) → value o ≠ value d → one_object g d →
  total_degree g < fuel →
  ∃ price path s,
    dijkstra haversine fuel g c o d = Some (Returned (Tuple2 price path), s).
Proof.
  intros Hq Hne Hone Hfuel.
  destruct (dijkstra_terminates haversine fuel g c o d Hfuel) as [[r s'] Hrun].
  pose proof Hrun as Hrun'.
  apply while_routes_nsteps in Hrun' as (n & s & _ & Hn & Hret).
  destruct (search_invariants_nsteps g o d n _ s (Shape_init haversine g c o)
              (Covered_init g c o) (Passed_init g c o d) Hn) as (Hs & Hcov & Hpas).
  destruct (Shape_return _ _ _ _ _ _ _ Hs Hret) as [_ [(-> & Hnil & ->)|H]].
  - exfalso. destruct Hs as (_ & Ho & _).
    pose proof (Covered_closed g s q _ _ Hcov Hnil Hq Ho) as Hd.
    destruct (Hpas _ Hd) as [E|(k & a & Ha & Hv & Had)]; [congruence|].
    apply Had. by apply (Hone k).
  - destruct H as (price & path & rest & _ & -> & _). by exists price, path, s'.
Qed.

End Completeness.

(** ** The returned path *)

Section SimplePaths.
Variable haversine : Qc * Qc → Qc * Qc → Q.

Lemma Simple_init g c o : Simple (dijkstra_init haversine g c o).
Proof.
  destruct (dijkstra_init_fields haversine g c o) as (_ & _ & Hr & _).
  unfold Simple. rewrite Hr, push_first_paths. simpl.
  apply Forall_fmap, Forall_forall. intros n _. simpl.
  exists [o], n. split; [done|]. simpl. apply NoDup_singleton.
Qed.

(** A path of the queue whose last node is not visited repeats no node. *)
Lemma route_shape_simple g0 o V p a :
  route_shape g0 o V p → (∃ pre b, p = pre ++ [b] ∧ NoDup (value <$> pre)) →
  last p = Some a → value a ∉ V → NoDup (value <$> p).
Proof.
  intros (pre0 & a0 & b0 & -> & _ & _ & _ & Hvis) (pre & b & Hp & Hnd) Hl Ha.
  rewrite app_two in Hp. apply app_inj_tail in Hp as [<- <-].
  rewrite app_two, last_snoc in Hl. injection Hl as ->.
  rewrite app_two, fmap_app. simpl. apply NoDup_app. split; [done|]. split.
  - intros v Hv Hv'. apply list_elem_of_singleton in Hv' as ->.
    apply list_elem_of_fmap in Hv as (x & Hx & Hin). apply Ha. rewrite Hx. by apply Hvis.
  - apply NoDup_singleton.
Qed.

Lemma Simple_step g0 o d s s' :
  Shape g0 o s → Simple s → loop_step haversine d s s' → Simple s'.
Proof.
  intros (_ & _ & Hr) Hsim H.
  apply iteration_Continue_inv in H as (c & p & rest & a & Hpop & Hlast & H).
  pose proof (heappop_perm _ _ _ Hpop) as Hperm.
  unfold Simple in Hsim. rewrite Hperm in Hr, Hsim. simpl in Hr, Hsim.
  apply Forall_cons in Hr as [Hp _]. apply Forall_cons in Hsim as [Hps Hrest].
  destruct H as [[Hv ->]|(Hv & Hd & ->)]; unfold Simple; simpl; [done|].
  rewrite relax_paths. simpl. apply Forall_app. split; [done|].
  apply Forall_fmap, Forall_forall. intros n _. simpl.
  exists p, n. split; [done|]. by eapply route_shape_simple.
Qed.

Lemma Simple_nsteps g0 o d n s s' :
  Shape g0 o s → Simple s → nsteps (loop_step haversine d) n s s' →
  Shape g0 o s' ∧ Simple s'.
Proof.
  intros Hs Hsim H. induction H as [|n s1 s2 s3 H1 _ IH]; [done|].
  apply IH; eauto using Shape_step, Simple_step.
Qed.

Lemma dijkstra_path_simple fuel g c o d price path s :
  dijkstra haversine fuel g c o d = Some (Returned (Tuple2 price path), s) →
  NoDup (value <$> path) ∧ head path = Some o ∧ last path = Some d
  ∧ 2 ≤ length path.
Proof.
  intros Hrun. apply while_routes_nsteps in Hrun as (n & s0 & _ & Hn & Hret).
  destruct (Simple_nsteps g o d n _ s0 (Shape_init haversine g c o)
              (Simple_init g c o) Hn) as (Hs & Hsim).
  destruct (Shape_return _ _ _ _ _ _ _ Hs Hret) as [_ [(? & _)|H]]; [done|].
  destruct H as (q & p & rest & Hpop & [= <- <-] & _ & Hshape & Hlast & Hv).
  pose proof (heappop_perm _ _ _ Hpop) as Hperm.
  unfold Simple in Hsim. rewrite Hperm in Hsim. simpl in Hsim.
  apply Forall_cons in Hsim as [Hps _].
  split; [by eapply route_shape_simple|].
  destruct Hshape as (pre & a & b & -> & _ & Hh & _).
  split; [done|]. split; [done|]. rewrite length_app. simpl. lia.
Qed.

End SimplePaths.

(** ** The cache and the empty entries do not show in the result *)

Section Transparency.
Variable haversine : Qc * Qc → Qc * Qc → Q.

Lemma Heap_eq (h1 h2 : Heap) : _values h1 = _values h2 → h1 = h2.
Proof. destruct h1, h2. simpl. by intros ->. Qed.

Lemma agree_init g1 g2 c1 c2 o :
  (∀ k, adj g1 k = adj g2 k) → cache_ok haversine c1 → cache_ok haversine c2 →
  agree (cache_ok haversine) (dijkstra_init haversine g1 c1 o)
    (dijkstra_init haversine g2 c2 o).
Proof.
  intros Hadj H1 H2.
  destruct (dijkstra_init_fields haversine g1 c1 o) as (Hv1 & Hw1 & Hr1 & Hc1).
  destruct (dijkstra_init_fields haversine g2 c2 o) as (Hv2 & Hw2 & Hr2 & Hc2).
  destruct (push_first_priced haversine o (neighbors g1 o).1 Heap_init c1 H1) as [E1 K1].
  destruct (push_first_priced haversine o (neighbors g2 o).1 Heap_init c2 H2) as [E2 K2].
  unfold agree. rewrite Hv1, Hv2, Hw1, Hw2, Hr1, Hr2, Hc1, Hc2.
  split; [|split; [done|split; [|done]]].
  - apply Heap_eq. rewrite E1, E2, !neighbors_fst. by rewrite Hadj.
  - intros k. by rewrite !neighbors_adj.
Qed.

Lemma agree_iteration d s1 s2 :
  agree (cache_ok haversine) s1 s2 →
  match iteration haversine d s1, iteration haversine d s2 with
  | Continue s1', Continue s2' => agree (cache_ok haversine) s1' s2'
  | Return r1 _, Return r2 _ => r1 = r2
  | _, _ => False
  end.
Proof.
  intros (Hr & Hv & Hadj & H1 & H2).
  destruct (heappop (_values (routes s1))) as [[[c p] rest]|] eqn:Hpop.
  2:{ apply heappop_None in Hpop.
      rewrite (iteration_exhausted haversine d s1 Hpop).
      rewrite Hr in Hpop. by rewrite (iteration_exhausted haversine d s2 Hpop). }
  rewrite (iteration_pop haversine d s1 c p rest Hpop).
  rewrite Hr in Hpop. rewrite (iteration_pop haversine d s2 c p rest Hpop).
  destruct (last p) as [a|]; [|done]. rewrite <- Hv.
  case_decide.
  { unfold agree, popped. simpl. done. }
  destruct (is_ a d); [done|].
  destruct (relax_priced haversine (visited s1) c p a (neighbors (world s1) a).1
              (mkHeap rest) (cache s1) H1) as [E1 K1].
  destruct (relax_priced haversine (visited s1) c p a (neighbors (world s2) a).1
              (mkHeap rest) (cache s2) H2) as [E2 K2].
  unfold agree, settled. simpl. rewrite <- Hv.
  split; [|split; [done|split; [|done]]].
  - apply Heap_eq. rewrite E1, E2, !neighbors_fst. by rewrite Hadj.
  - intros k. by rewrite !neighbors_adj.
Qed.

Lemma agree_while fuel d s1 s2 :
  agree (cache_ok haversine) s1 s2 →
  match while_routes haversine fuel d s1, while_routes haversine fuel d s2 with
  | Some (r1, _), Some (r2, _) => r1 = r2
  | None, None => True
  | _, _ => False
  end.
Proof.
  revert s1 s2. induction fuel as [|fuel IH]; intros s1 s2 Hag; simpl; [done|].
  pose proof (agree_iteration d s1 s2 Hag) as H.
  destruct (iteration haversine d s1), (iteration haversine d s2); try done.
  by apply IH.
Qed.

Lemma cache_ok_step d s s' :
  cache_ok haversine (cache s) → loop_step haversine d s s' →
  cache_ok haversine (cache s').
Proof.
  intros Hc H.
  apply iteration_Continue_inv in H as (c & p & rest & a & _ & _ & H).
  destruct H as [[_ ->]|(_ & _ & ->)]; [done|]. simpl.
  by destruct (relax_priced haversine (visited s) c p a (neighbors (world s) a).1
                 (mkHeap rest) (cache s) Hc).
Qed.

Lemma cache_ok_final fuel g c o d r s :
  cache_ok haversine c → dijkstra haversine fuel g c o d = Some (r, s) →
  cache_ok haversine (cache s).
Proof.
  intros Hc Hrun. apply while_routes_nsteps in Hrun as (n & s0 & _ & Hn & Hret).
  assert (cache_ok haversine (cache s0)) as H0.
  { assert (cache_ok haversine (cache (dijkstra_init haversine g c o))) as Hi.
    { destruct (dijkstra_init_fields haversine g c o) as (_ & _ & _ & ->).
      by destruct (push_first_priced haversine o (neighbors g o).1 Heap_init c Hc). }
    clear Hret. induction Hn as [|n s1 s2 s3 H1 _ IH]; [done|].
    apply IH. by eapply cache_ok_step. }
  apply iteration_Return_inv in Hret as [(_ & _ & ->)|[(? & ? & _ & _ & ->)|H]]; try done.
  by destruct H as (? & ? & ? & _ & _ & _ & _ & ->).
Qed.

Lemma dijkstra_agrees fuel g1 g2 c1 c2 o d r s1 :
  (∀ k, adj g1 k = adj g2 k) → cache_ok haversine c1 → cache_ok haversine c2 →
  dijkstra haversine fuel g1 c1 o d = Some (r, s1) →
  ∃ s2, dijkstra haversine fuel g2 c2 o d = Some (r, s2).
Proof.
  intros Hadj H1 H2 Hrun.
  pose proof (agree_while fuel d _ _ (agree_init g1 g2 c1 c2 o Hadj H1 H2)) as H.
  unfold dijkstra in *. rewrite Hrun in H.
  destruct (while_routes haversine fuel d (dijkstra_init haversine g2 c2 o))
    as [[r2 s2]|]; [|done].
  subst r2. by exists s2.
Qed.

End Transparency.

(** ** The order of the pops *)

Section PopOrder.
Variable haversine : Qc * Qc → Qc * Qc → Q.

Lemma cache_ok_nsteps d n s s' :
  cache_ok haversine (cache s) → nsteps (loop_step haversine d) n s s' →
  cache_ok haversine (cache s').
Proof.
  intros Hc H. induction H as [|n s1 s2 s3 H1 _ IH]; [done|].
  apply IH. by eapply cache_ok_step.
Qed.

Lemma cache_ok_init g c o :
  cache_ok haversine c → cache_ok haversine (cache (dijkstra_init haversine g c o)).
Proof.
  intros Hc. destruct (dijkstra_init_fields haversine g c o) as (_ & _ & _ & ->).
  by destruct (push_first_priced haversine o (neighbors g o).1 Heap_init c Hc).
Qed.

Lemma pops_nondecreasing g c o d n s s' r rest r' rest' :
  nonneg_costs haversine g → cache_ok haversine c →
  nsteps (loop_step haversine d) n (dijkstra_init haversine g c o) s →
  loop_step haversine d s s' →
  heappop (_values (routes s)) = Some (r, rest) →
  heappop (_values (routes s')) = Some (r', rest') →
  (price r <= price r')%Q.
Proof.
  intros Hnn Hc Hn Hstep Hpop Hpop'.
  pose proof (Shape_nsteps haversine g o d n _ s (Shape_init haversine g c o) Hn)
    as (He & _ & Hshape).
  pose proof (cache_ok_nsteps d n _ s (cache_ok_init g c o Hc) Hn) as Hcs.
  assert (r' ∈ _values (routes s')) as Hin.
  { rewrite (heappop_perm _ _ _ Hpop'). apply list_elem_of_here. }
  apply iteration_Continue_inv in Hstep as (q & p & rest0 & a & Hpop0 & Hlast & H).
  rewrite Hpop in Hpop0. injection Hpop0 as -> <-.
  assert (∀ x, x ∈ rest → (q <= price x)%Q) as Hrest.
  { intros x Hx. apply (heappop_least _ _ _ Hpop x).
    rewrite (heappop_perm _ _ _ Hpop). by apply list_elem_of_further. }
  destruct H as [[_ ->]|(_ & _ & ->)]; simpl in *; [by apply Hrest|].
  destruct (relax_priced haversine (visited s) q p a (neighbors (world s) a).1
              (mkHeap rest) (cache s) Hcs) as [E _].
  rewrite E in Hin. simpl in Hin. apply elem_of_app in Hin as [Hin|Hin]; [by apply Hrest|].
  unfold pushed_routes in Hin. apply list_elem_of_fmap in Hin as (b & -> & Hb).
  apply list_elem_of_filter in Hb as [_ Hb]. simpl.
  rewrite neighbors_fst, (same_edges_adj _ _ _ He) in Hb.
  assert (0 <= direct_price haversine (value a) (value b))%Q as Hge.
  { apply Hnn. unfold edge. by apply list_elem_of_fmap_2. }
  lra.
Qed.

Lemma settled_keeps_rest s c p rest a :
  _values (routes (settled haversine s c p rest a)) = [] → rest = [].
Proof.
  intros H. apply (f_equal (fmap path)) in H. unfold settled in H. simpl in H.
  rewrite relax_paths in H. simpl in H. apply app_eq_nil in H as [H _].
  by apply fmap_nil_inv in H.
Qed.

(** ** A single neighbour *)

Lemma dijkstra_only_neighbour fuel g c A B :
  adj g (value A) = [B] → value A ≠ value B → cache_ok haversine c → 1 ≤ fuel →
  ∃ s, dijkstra haversine fuel g c A B
       = Some (Returned (Tuple2 (direct_price haversine (value A) (value B)) [A; B]), s).
Proof.
  intros Hadj Hne Hc Hfuel. destruct fuel as [|fuel]; [lia|].
  unfold dijkstra.
  destruct (dijkstra_init_fields haversine g c A) as (Hv & _ & Hr & _).
  destruct (push_first_priced haversine A (neighbors g A).1 Heap_init c Hc) as [Hvals _].
  rewrite <- Hr, neighbors_fst, Hadj in Hvals. simpl in Hvals.
  simpl. erewrite iteration_arrived; [by eexists| |done|].
  - rewrite Hvals. reflexivity.
  - rewrite Hv. set_solver.
Qed.

End PopOrder.

(** ** The cache through a search *)

Section CacheBound.
Variable haversine : Qc * Qc → Qc * Qc → Q.

Lemma get_price_wf c a b : cache_wf c → cache_wf (get_price haversine c a b).2.
Proof.
  intros [Hlen Hnd]. split; [by apply get_price_size|by apply get_price_NoDup].
Qed.

Lemma get_price_counts c a b :
  hits (get_price haversine c a b).2 + misses (get_price haversine c a b).2
  = S (hits c + misses c).
Proof. unfold get_price. destruct (cache_get _ _); simpl; lia. Qed.

Lemma push_first_wf o ns h c :
  cache_wf c → cache_wf (fold_left (push_first haversine o) ns (h, c)).2.
Proof.
  revert h c. induction ns as [|n ns IH]; intros h c Hc; simpl; [done|].
  unfold push_first at 2. simpl.
  pose proof (get_price_wf c o n Hc) as H.
  destruct (get_price haversine c o n) as [p c']. by apply IH.
Qed.

Lemma relax_wf V q p a ns h c :
  cache_wf c → cache_wf (fold_left (relax haversine V q p a) ns (h, c)).2.
Proof.
  revert h c. induction ns as [|n ns IH]; intros h c Hc; simpl; [done|].
  unfold relax at 2. simpl. case_decide as Hin; [by apply IH|].
  pose proof (get_price_wf c a n Hc) as H.
  destruct (get_price haversine c a n) as [x c']. by apply IH.
Qed.

Lemma cache_wf_step d s s' :
  cache_wf (cache s) → loop_step haversine d s s' → cache_wf (cache s').
Proof.
  intros Hc H.
  apply iteration_Continue_inv in H as (c & p & rest & a & _ & _ & H).
  destruct H as [[_ ->]|(_ & _ & ->)]; [done|]. simpl. by apply relax_wf.
Qed.

Lemma cache_wf_final fuel g c o d r s :
  cache_wf c → dijkstra haversine fuel g c o d = Some (r, s) → cache_wf (cache s).
Proof.
  intros Hc Hrun. apply while_routes_nsteps in Hrun as (n & s0 & _ & Hn & Hret).
  assert (cache_wf (cache s0)) as H0.
  { assert (cache_wf (cache (dijkstra_init haversine g c o))) as Hi.
    { destruct (dijkstra_init_fields haversine g c o) as (_ & _ & _ & ->).
      by apply push_first_wf. }
    clear Hret. induction Hn as [|n s1 s2 s3 H1 _ IH]; [done|].
    apply IH. by eapply cache_wf_step. }
  apply iteration_Return_inv in Hret as [(_ & _ & ->)|[(? & ? & _ & _ & ->)|H]]; try done.
  by destruct H as (? & ? & ? & _ & _ & _ & _ & ->).
Qed.

End CacheBound.

(** ** Connecting twice *)

Lemma set_add_present s x : value x ∈ value <$> s → set_add s x = s.
Proof. intros H. unfold set_add. by rewrite decide_True. Qed.

Lemma add_neighbor_present d n1 n2 s :
  d !! value n1 = Some s → value n2 ∈ value <$> s → add_neighbor d n1 n2 = d.
Proof.
  intros Hs Hin. unfold add_neighbor, getitem. rewrite Hs.
  rewrite set_add_present by done. by apply insert_id.
Qed.

Lemma connect_lookup_l g a b :
  ∃ s, _neighbors (connect g a b) !! value a = Some s ∧ value b ∈ value <$> s.
Proof.
  unfold connect. simpl. rewrite !add_neighbor_lookup.
  rewrite (decide_True (P := value a = value a)) by done.
  destruct (decide (value a = value b)) as [E|E].
  - eexists. split; [done|]. rewrite <- E at 1.
    apply elem_of_set_add_value. left. rewrite E at 1.
    apply elem_of_set_add_value. by right.
  - eexists. split; [done|]. apply elem_of_set_add_value. by right.
Qed.

Lemma connect_lookup_r g a b :
  ∃ s, _neighbors (connect g a b) !! value b = Some s ∧ value a ∈ value <$> s.
Proof.
  unfold connect. simpl. rewrite add_neighbor_lookup.
  rewrite decide_True by done.
  eexists. split; [done|]. apply elem_of_set_add_value. by right.
Qed.

Lemma connect_idempotent g a b : connect (connect g a b) a b = connect g a b.
Proof.
  destruct (connect_lookup_l g a b) as (sa & Ha & Hb).
  destruct (connect_lookup_r g a b) as (sb & Hb' & Ha').
  unfold connect at 1.
  rewrite (add_neighbor_present _ a b sa Ha Hb).
  rewrite (add_neighbor_present _ b a sb Hb' Ha').
  by destruct (connect g a b).
Qed.

(** ** Graphs made by [connect] *)

Lemma build_symmetric es x y : edge (build es) x y → edge (build es) y x.
Proof.
  rewrite !edge_build. intros (e & He & H). exists e. split; [done|]. tauto.
Qed.

Lemma build_one_object_per_value es k : NoDup (value <$> adj (build es) k).
Proof.
  unfold build. generalize Graph_init, adj_init. intros g Hg.
  assert (∀ k, NoDup (value <$> adj g k)) as H.
  { intros k'. rewrite Hg. apply NoDup_nil_2. }
  clear Hg. revert g H. induction es as [|e es IH]; intros g H; simpl; [done|].
  apply IH. by apply NoDup_adj_connect.
Qed.

Lemma fold_connect_is_Some es g k :
  is_Some (_neighbors (fold_left (λ g e, connect g e.1 e.2) es g) !! k)
  ↔ is_Some (_neighbors g !! k) ∨ ∃ e, e ∈ es ∧ (k = value e.1 ∨ k = value e.2).
Proof.
  revert g. induction es as [|e es IH]; intros g; simpl.
  - split; [by left|]. intros [?|(e & He & _)]; [done|]. by apply not_elem_of_nil in He.
  - rewrite IH, connect_is_Some. split.
    + intros [[?|H]|(e' & He' & H)]; [by left|right..].
      * exists e. split; [apply list_elem_of_here|done].
      * exists e'. split; [by apply list_elem_of_further|done].
    + intros [?|(e' & He' & H)]; [by left; left|].
      apply elem_of_cons in He' as [->|He']; [by left; right|].
      right. by exists e'.
Qed.

Lemma build_keys es k :
  is_Some (_neighbors (build es) !! k) ↔ ∃ e, e ∈ es ∧ (k = value e.1 ∨ k = value e.2).
Proof.
  unfold build. rewrite fold_connect_is_Some. split; [|by right].
  intros [H|H]; [|done]. unfold Graph_init in H. simpl in H.
  rewrite lookup_empty in H. by destruct H.
Qed.

Lemma build_no_empty_entry es k s :
  _neighbors (build es) !! k = Some s → s ≠ [].
Proof.
  intros Hs ->. assert (is_Some (_neighbors (build es) !! k)) as H by by eexists.
  apply build_keys in H as (e & He & H).
  assert (∃ y, edge (build es) k y) as [y Hy].
  { destruct H as [-> | ->]; eexists; apply edge_build; exists e; split; eauto. }
  unfold edge, adj in Hy. rewrite Hs in Hy. simpl in Hy. by apply not_elem_of_nil in Hy.
Qed.



(** ** Looking up neighbours *)

Lemma neighbors_again g node :
  neighbors (neighbors g node).2 node = ((neighbors g node).1, (neighbors g node).2).
Proof.
  unfold neighbors, getitem. destruct g as [d]. simpl.
  destruct (d !! value node) as [s|] eqn:E; simpl.
  - by rewrite E.
  - by rewrite lookup_insert_eq.
Qed.

Lemma neighbors_entry g node :
  _neighbors (neighbors g node).2 !! value node = Some (neighbors g node).1.
Proof.
  unfold neighbors, getitem. destruct g as [d]. simpl.
  destruct (d !! value node) as [s|] eqn:E; simpl; [done|].
  by rewrite lookup_insert_eq.
Qed.

(** ** Loaded graphs *)

Lemma load_objects AIRPORTS flights k n :
  n ∈ adj (load AIRPORTS flights) k →
  ∃ f, f ∈ flights
       ∧ is_Some (AIRPORTS !! origin f) ∧ is_Some (AIRPORTS !! destination f)
       ∧ (AIRPORTS !! origin f = Some n ∨ AIRPORTS !! destination f = Some n).
Proof.
  rewrite load_build. unfold build. intros H.
  apply fold_connect_objects in H as [H|([o d] & He & H)].
  { rewrite adj_init in H. by apply not_elem_of_nil in H. }
  apply list_elem_of_omap in He as (f & Hf & Hk). exists f. split; [done|].
  unfold known_flight in Hk.
  destruct (AIRPORTS !! origin f) as [o'|]; simpl in Hk; [|done].
  destruct (AIRPORTS !! destination f) as [d'|]; simpl in Hk; [|done].
  injection Hk as -> ->. simpl in H.
  split; [by eexists|]. split; [by eexists|]. destruct H as [-> | ->]; [by left|by right].
Qed.

Lemma load_one_object AIRPORTS flights d :
  (∀ c x, AIRPORTS !! c = Some x → code (value x) = c) →
  (∃ c, AIRPORTS !! c = Some d) →
  one_object (load AIRPORTS flights) d.
Proof.
  intros Hkeys [c Hd] k n Hn Hv.
  apply load_objects in Hn as (f & _ & _ & _ & Hn).
  assert (∃ c', AIRPORTS !! c' = Some n) as [c' Hc'] by (destruct Hn; eauto).
  pose proof (Hkeys _ _ Hc') as E1. pose proof (Hkeys _ _ Hd) as E2.
  rewrite Hv, E2 in E1. subst c'. congruence.
Qed.

(** ** The heap *)

Lemma pop_None h : pop h = None ↔ len h = 0.
Proof.
  unfold pop, len. destruct (heappop (_values h)) as [[r rest]|] eqn:E.
  - split; [done|]. intros H. apply nil_length_inv in H. by rewrite H in E.
  - apply heappop_None in E. by rewrite E.
Qed.

Lemma pop_Some h r h' :
  pop h = Some (r, h') →
  _values h ≡ₚ r :: _values h' ∧ len h = S (len h')
  ∧ ∀ x, x ∈ _values h → (price r <= price x)%Q.
Proof.
  unfold pop, len. destruct (heappop (_values h)) as [[m rest]|] eqn:E; [|done].
  intros [= <- <-]. simpl. split; [by apply heappop_perm|].
  split; [by eapply heappop_length|]. by eapply heappop_least.
Qed.

Lemma pop_pop h r1 h1 r2 h2 :
  pop h = Some (r1, h1) → pop h1 = Some (r2, h2) → (price r1 <= price r2)%Q.
Proof.
  intros H1 H2. destruct (pop_Some _ _ _ H1) as (Hperm & _ & Hleast).
  destruct (pop_Some _ _ _ H2) as (Hperm2 & _ & _).
  apply Hleast. rewrite Hperm, Hperm2.
  apply list_elem_of_further, list_elem_of_here.
Qed.

Lemma pop_push h r :
  ∃ m h', pop (push h r) = Some (m, h') ∧ (price m <= price r)%Q
          ∧ len h' = len h ∧ r :: _values h ≡ₚ m :: _values h'.
Proof.
  destruct (pop (push h r)) as [[m h']|] eqn:E.
  - exists m, h'. split; [done|]. destruct (pop_Some _ _ _ E) as (Hperm & Hlen & Hleast).
    unfold push, heappush, len in *. simpl in *.
    split; [apply Hleast; set_solver|]. rewrite length_app in Hlen. simpl in Hlen.
    split; [lia|]. rewrite <- Hperm. by rewrite Permutation_app_comm.
  - apply pop_None in E. unfold push, heappush, len in E. simpl in E.
    rewrite length_app in E. simpl in E. lia.
Qed.

(** ** Reading the two tables *)

Section ReaderProofs.
Variable float : string → option Qc.
Variable int : string → option Z.

Lemma item_Got row i x : item row i = Got x ↔ row !! i = Some x.
Proof. unfold item. destruct (row !! i); split; congruence. Qed.

Lemma item_Failed row i e : item row i = Failed e ↔ length row ≤ i ∧ e = ReadIndexError.
Proof.
  unfold item. destruct (row !! i) eqn:E.
  - apply lookup_lt_Some in E. split; [done|]. lia.
  - apply lookup_ge_None in E. split; [by intros [= <-]|by intros [_ ->]].
Qed.

Lemma airport_of_row_Got row a :
  airport_of_row float row = Got a ↔
  row !! 1 = Some (name a) ∧ row !! 3 = Some (country a) ∧ row !! 4 = Some (code a)
  ∧ (∃ s, row !! 6 = Some s ∧ float s = Some (latitude a))
  ∧ (∃ s, row !! 7 = Some s ∧ float s = Some (longitude a)).
Proof.
  unfold airport_of_row, item, to_float, mbind, mret, reading_bind, reading_ret.
  destruct a as [c n k la lo]. simpl. split.
  - destruct (row !! 1); [|done]. destruct (row !! 3); [|done].
    destruct (row !! 4); [|done]. destruct (row !! 6) as [s6|]; [|done].
    destruct (float s6) eqn:E6; [|done]. destruct (row !! 7) as [s7|]; [|done].
    destruct (float s7) eqn:E7; [|done]. intros [= -> -> -> -> ->]. eauto 10.
  - intros (-> & -> & -> & (s6 & -> & ->) & (s7 & -> & ->)). done.
Qed.

Lemma airport_of_row_ok row :
  airport_row_ok float row ↔ ∃ a, airport_of_row float row = Got a.
Proof.
  unfold airport_row_ok. split.
  - intros (Hlen & H6 & H7).
    destruct (lookup_lt_is_Some_2 row 1) as [x1 E1]; [lia|].
    destruct (lookup_lt_is_Some_2 row 3) as [x3 E3]; [lia|].
    destruct (lookup_lt_is_Some_2 row 4) as [x4 E4]; [lia|].
    destruct (lookup_lt_is_Some_2 row 6) as [x6 E6]; [lia|].
    destruct (lookup_lt_is_Some_2 row 7) as [x7 E7]; [lia|].
    destruct (H6 _ E6) as [la Hla]. destruct (H7 _ E7) as [lo Hlo].
    exists (mkAirport x4 x1 x3 la lo). apply airport_of_row_Got. simpl. eauto 10.
  - intros [a Ha]. apply airport_of_row_Got in Ha as (_ & _ & _ & (s6 & E6 & F6) & (s7 & E7 & F7)).
    split; [apply lookup_lt_Some in E7; lia|].
    split; intros s Hs; simplify_eq; by eexists.
Qed.

(** All rows are read, or none of the airports is kept. *)
Lemma get_airports_from_None i rows l :
  get_airports_from float i rows = (l, None) →
  Forall2 (λ row a, airport_of_row float row = Got (value a)) rows l
  ∧ oid <$> l = seq i (length rows).
Proof.
  revert i l. induction rows as [|row rows IH]; intros i l; simpl.
  - by intros [= <-].
  - destruct (airport_of_row float row) as [a|e] eqn:E; [|done].
    destruct (get_airports_from float (S i) rows) as [l' e'] eqn:E'.
    intros [= <- ->]. destruct (IH _ _ E') as [H1 H2].
    split; [by constructor|]. rewrite fmap_cons. simpl. by rewrite H2.
Qed.

Lemma get_airports_from_Some i rows l e :
  get_airports_from float i rows = (l, Some e) →
  ∃ row, row ∈ rows ∧ airport_of_row float row = Failed e.
Proof.
  revert i l. induction rows as [|row rows IH]; intros i l; simpl; [done|].
  destruct (airport_of_row float row) as [a|e0] eqn:E.
  - destruct (get_airports_from float (S i) rows) as [l' e'] eqn:E'.
    intros [= <- ->]. destruct (IH _ _ E') as (row' & Hin & Hf).
    exists row'. split; [by apply list_elem_of_further|done].
  - intros [= <- <-]. exists row. split; [apply list_elem_of_here|done].
Qed.

Lemma AIRPORTS_of_Got rows :
  Forall (airport_row_ok float) rows ↔ ∃ T, AIRPORTS_of float rows = Got T.
Proof.
  unfold AIRPORTS_of, get_airports.
  destruct (get_airports_from float 0 rows) as [l [e|]] eqn:E.
  - split; [|by intros [? ?]]. intros Hall.
    apply get_airports_from_Some in E as (row & Hin & Hf).
    apply (proj1 (Forall_forall _ _) Hall) in Hin.
    apply airport_of_row_ok in Hin as [a Ha]. congruence.
  - split; [by eexists|]. intros _.
    apply get_airports_from_None in E as [H _].
    apply Forall_forall. intros row Hin.
    apply list_elem_of_lookup in Hin as [j Hj].
    destruct (Forall2_lookup_l _ _ _ _ _ H Hj) as (a & _ & Ha).
    apply airport_of_row_ok. by eexists.
Qed.

Lemma by_code_fold (l : list AirportRef) (m : gmap string AirportRef) c :
  fold_left (λ m airport, <[code (value airport) := airport]> m) l m !! c
  = match last (filter (λ a, code (value a) = c) l) with
    | Some a => Some a
    | None => m !! c
    end.
Proof.
  revert m. induction l as [|a l IH]; intros m; simpl; [done|].
  rewrite IH, filter_cons. case_decide as Hc.
  - destruct (filter _ l) as [|b l'] eqn:E.
    + simpl. subst c. by rewrite lookup_insert_eq.
    + rewrite last_cons_cons. destruct (last (b :: l')) eqn:EL; [done|].
      by apply last_None in EL.
  - destruct (last (filter _ l)); [done|]. by rewrite lookup_insert_ne.
Qed.

Lemma by_code_lookup l c :
  by_code l !! c = last (filter (λ a, code (value a) = c) l).
Proof.
  unfold by_code. rewrite by_code_fold, lookup_empty. by destruct (last _).
Qed.

Lemma by_code_keyed l c x : by_code l !! c = Some x → code (value x) = c ∧ x ∈ l.
Proof.
  rewrite by_code_lookup. intros H. apply last_Some_elem_of in H.
  by apply list_elem_of_filter in H.
Qed.

Lemma flight_of_row_Got row f :
  flight_of_row int row = Got f ↔
  ∃ o d s n, row !! 2 = Some o ∧ row !! 4 = Some d ∧ row !! 7 = Some s ∧ int s = Some n
             ∧ f = if decide (n = 0%Z) then Some (mkFlight o d) else None.
Proof.
  unfold flight_of_row, item, to_int, mbind, mret, reading_bind, reading_ret. split.
  - destruct (row !! 2) as [o|]; [|done]. destruct (row !! 4) as [d|]; [|done].
    destruct (row !! 7) as [s|]; [|done]. destruct (int s) as [n|] eqn:E; [|done].
    intros [= <-]. by exists o, d, s, n.
  - intros (o & d & s & n & -> & -> & -> & -> & ->). done.
Qed.

Lemma flight_of_row_ok row :
  flight_row_ok int row ↔ ∃ f, flight_of_row int row = Got f.
Proof.
  unfold flight_row_ok. split.
  - intros (Hlen & H7).
    destruct (lookup_lt_is_Some_2 row 2) as [x2 E2]; [lia|].
    destruct (lookup_lt_is_Some_2 row 4) as [x4 E4]; [lia|].
    destruct (lookup_lt_is_Some_2 row 7) as [x7 E7]; [lia|].
    destruct (H7 _ E7) as [n Hn]. eexists. apply flight_of_row_Got.
    by exists x2, x4, x7, n.
  - intros [f Hf]. apply flight_of_row_Got in Hf as (o & d & s & n & _ & _ & E7 & Hn & _).
    split; [apply lookup_lt_Some in E7; lia|].
    intros s' Hs. simplify_eq. by eexists.
Qed.

Lemma get_flights_None rows l :
  get_flights int rows = (l, None) →
  Forall (flight_row_ok int) rows
  ∧ l = omap (λ row, match flight_of_row int row with
                     | Got (Some f) => Some f
                     | _ => None
                     end) rows.
Proof.
  revert l. induction rows as [|row rows IH]; intros l; simpl.
  - by intros [= <-].
  - destruct (flight_of_row int row) as [f|e] eqn:E; [|done].
    destruct (get_flights int rows) as [l' e'] eqn:E'.
    intros [= <- ->]. destruct (IH _ eq_refl) as [H1 H2].
    split; [constructor; [apply flight_of_row_ok; by eexists|done]|].
    subst l'. simpl. by destruct f.
Qed.

Lemma get_flights_Some rows l e :
  get_flights int rows = (l, Some e) →
  ∃ row, row ∈ rows ∧ flight_of_row int row = Failed e.
Proof.
  revert l. induction rows as [|row rows IH]; intros l; simpl; [done|].
  destruct (flight_of_row int row) as [f|e0] eqn:E.
  - destruct (get_flights int rows) as [l' e'] eqn:E'.
    intros [= <- ->]. destruct (IH _ eq_refl) as (row' & Hin & Hf).
    exists row'. split; [by apply list_elem_of_further|done].
  - intros [= <- <-]. exists row. split; [apply list_elem_of_here|done].
Qed.

End ReaderProofs.

(** ** Facts about the sample data, continued *)

Lemma sample_AIRPORTS_keyed c x : sample_AIRPORTS !! c = Some x → code (value x) = c.
Proof.
  unfold sample_AIRPORTS. rewrite !lookup_insert, lookup_empty.
  repeat case_decide; intros [= <-]; by subst.
Qed.

Lemma triangle_direct : connects triangle [value VLC; value PDX] (value VLC) (value PDX).
Proof.
  split; [|split; reflexivity]. split; [|exact I].
  unfold edge. vm_compute. apply list_elem_of_further, list_elem_of_here.
Qed.

Lemma triangle_one_PDX : one_object triangle PDX.
Proof.
  apply load_one_object; [exact sample_AIRPORTS_keyed|]. by exists "PDX".
Qed.

Lemma triangle_fuel : total_degree triangle < 10.
Proof. vm_compute. lia. Qed.

(** * Further properties of the search *)

(** X1: when some walk of the graph leads from the origin to the
    destination, the two are different nodes and the graph holds no second
    object equal to the destination, the search returns a tuple: with C3
    this makes [float('infinity')] the answer exactly for what cannot be
    reached. *)
Theorem dijkstra_finds_reachable (haversine : Qc * Qc → Qc * Qc → Q) fuel g c o d q :
  connects g q (value o) (value d) → value o ≠ value d → one_object g d →
  total_degree g < fuel →
  ∃ price path s,
    dijkstra haversine fuel g c o d = Some (Returned (Tuple2 price path), s).
Proof. apply dijkstra_finds. Qed.

Lemma dijkstra_finds_reachable_witness :
  ∃ price path s,
    dijkstra squared_degrees 10 triangle cache_clear VLC PDX
    = Some (Returned (Tuple2 price path), s).
Proof.
  assert (value VLC ≠ value PDX) as Hne by done.
  exact (dijkstra_finds_reachable squared_degrees 10 triangle cache_clear VLC PDX
           [value VLC; value PDX] triangle_direct Hne triangle_one_PDX triangle_fuel).
Defined.

(** X2: the path of a returned tuple starts with the origin object, ends
    with the destination object, has at least two nodes and visits no
    node twice. *)
Theorem dijkstra_path_is_simple (haversine : Qc * Qc → Qc * Qc → Q)
    fuel g c o d price path s :
  dijkstra haversine fuel g c o d = Some (Returned (Tuple2 price path), s) →
  NoDup (value <$> path) ∧ head path = Some o ∧ last path = Some d
  ∧ 2 ≤ length path.
Proof. apply dijkstra_path_simple. Qed.

Lemma dijkstra_path_is_simple_witness :
  ∃ price path s,
    dijkstra squared_degrees 10 triangle cache_clear VLC PDX
    = Some (Returned (Tuple2 price path), s)
    ∧ NoDup (value <$> path).
Proof.
  assert (value VLC ≠ value PDX) as Hne by done.
  destruct (dijkstra_finds squared_degrees 10 triangle cache_clear VLC PDX
              [value VLC; value PDX] triangle_direct Hne triangle_one_PDX triangle_fuel)
    as (price & path & s & Hrun).
  exists price, path, s. split; [exact Hrun|].
  exact (proj1 (dijkstra_path_is_simple squared_degrees 10 triangle cache_clear
                  VLC PDX price path s Hrun)).
Defined.

(** X3: what a search returns depends neither on what the cache holds, as
    long as it holds true prices, nor on which nodes have an empty entry
    in the graph. *)
Theorem dijkstra_result_ignores_cache (haversine : Qc * Qc → Qc * Qc → Q)
    fuel g1 g2 c1 c2 o d r s1 :
  (∀ k, adj g1 k = adj g2 k) → cache_ok haversine c1 → cache_ok haversine c2 →
  dijkstra haversine fuel g1 c1 o d = Some (r, s1) →
  ∃ s2, dijkstra haversine fuel g2 c2 o d = Some (r, s2).
Proof. apply dijkstra_agrees. Qed.

Lemma dijkstra_result_ignores_cache_witness :
  ∃ r s1 s2,
    dijkstra squared_degrees 10 triangle cache_clear VLC PDX = Some (r, s1)
    ∧ dijkstra squared_degrees 10 triangle
        (get_price squared_degrees cache_clear PDX JFK).2 VLC PDX = Some (r, s2).
Proof.
  destruct (dijkstra_terminates squared_degrees 10 triangle cache_clear VLC PDX
              triangle_fuel) as [[r s1] Hrun].
  destruct (dijkstra_result_ignores_cache squared_degrees 10 triangle triangle
              cache_clear (get_price squared_degrees cache_clear PDX JFK).2 VLC PDX r s1
              (λ k, eq_refl) (cache_clear_ok squared_degrees)
              (proj2 (get_price_ok squared_degrees cache_clear PDX JFK
                        (cache_clear_ok squared_degrees)))
              Hrun) as [s2 Hrun2].
  exists r, s1, s2. split; [exact Hrun|exact Hrun2].
Defined.

(** X4: a second search between the same two objects, on the graph and
    with the cache that the first one leaves behind, returns what the
    first one returned. *)
Theorem dijkstra_twice (haversine : Qc * Qc → Qc * Qc → Q) fuel g c o d r s :
  cache_ok haversine c →
  dijkstra haversine fuel g c o d = Some (r, s) →
  ∃ s', dijkstra haversine fuel (world s) (cache s) o d = Some (r, s').
Proof.
  intros Hc Hrun.
  apply (dijkstra_agrees haversine fuel g (world s) c (cache s) o d r s); try done.
  - intros k. symmetry. apply same_edges_adj.
    by destruct (dijkstra_returns haversine _ _ _ _ _ _ _ Hrun).
  - by eapply cache_ok_final.
Qed.

Lemma dijkstra_twice_witness :
  ∃ r s s',
    dijkstra squared_degrees 10 triangle cache_clear VLC PDX = Some (r, s)
    ∧ dijkstra squared_degrees 10 (world s) (cache s) VLC PDX = Some (r, s').
Proof.
  destruct (dijkstra_terminates squared_degrees 10 triangle cache_clear VLC PDX
              triangle_fuel) as [[r s] Hrun].
  destruct (dijkstra_twice squared_degrees 10 triangle cache_clear VLC PDX r s
              (cache_clear_ok squared_degrees) Hrun) as [s' Hrun'].
  exists r, s, s'. split; [exact Hrun|exact Hrun'].
Defined.

(** X5: with non-negative edge costs the routes leave the queue in
    non-decreasing order of price: the route popped by an iteration is no
    dearer than the one popped by the next. *)
Theorem pops_are_nondecreasing (haversine : Qc * Qc → Qc * Qc → Q)
    g c o d n s s' r rest r' rest' :
  nonneg_costs haversine g → cache_ok haversine c →
  nsteps (loop_step haversine d) n (dijkstra_init haversine g c o) s →
  loop_step haversine d s s' →
  heappop (_values (routes s)) = Some (r, rest) →
  heappop (_values (routes s')) = Some (r', rest') →
  (price r <= price r')%Q.
Proof. apply pops_nondecreasing. Qed.

Lemma triangle_first_pop :
  heappop (_values (routes (dijkstra_init squared_degrees triangle cache_clear VLC)))
  = Some (mkRoute (direct_price squared_degrees (value VLC) (value JFK)) [VLC; JFK],
          [mkRoute (direct_price squared_degrees (value VLC) (value PDX)) [VLC; PDX]]).
Proof. vm_compute. reflexivity. Qed.

Lemma pops_are_nondecreasing_witness :
  ∃ s' r rest r' rest',
    loop_step squared_degrees PDX (dijkstra_init squared_degrees triangle cache_clear VLC) s'
    ∧ heappop (_values (routes (dijkstra_init squared_degrees triangle cache_clear VLC)))
      = Some (r, rest)
    ∧ heappop (_values (routes s')) = Some (r', rest')
    ∧ (price r <= price r')%Q.
Proof.
  pose proof triangle_first_pop as Hpop.
  assert (value JFK ∉ visited (dijkstra_init squared_degrees triangle cache_clear VLC))
    as Hv.
  { destruct (dijkstra_init_fields squared_degrees triangle cache_clear VLC) as [-> _].
    intros H. apply elem_of_singleton in H. discriminate H. }
  assert (JFK ≠ PDX) as Hd by discriminate.
  pose proof (iteration_settle squared_degrees PDX _ _ _ _ JFK Hpop eq_refl Hv Hd) as Hstep.
  destruct (heappop (_values (routes (settled squared_degrees
              (dijkstra_init squared_degrees triangle cache_clear VLC)
              (direct_price squared_degrees (value VLC) (value JFK)) [VLC; JFK]
              [mkRoute (direct_price squared_degrees (value VLC) (value PDX)) [VLC; PDX]]
              JFK)))) as [[r' rest']|] eqn:Hpop'.
  2:{ exfalso. apply heappop_None in Hpop'.
      apply settled_keeps_rest in Hpop'. discriminate Hpop'. }
  eexists _, _, _, r', rest'. split; [exact Hstep|]. split; [exact Hpop|].
  split; [exact Hpop'|].
  exact (pops_are_nondecreasing squared_degrees triangle cache_clear VLC PDX 0 _ _
           _ _ r' rest' (squared_degrees_costs triangle)
           (cache_clear_ok squared_degrees) (nsteps_O _ _) Hstep Hpop Hpop').
Defined.

(** X6: when the destination is the only neighbour of the origin, the
    search returns the direct route, priced as [get_price] prices the hop. *)
Theorem dijkstra_single_neighbour (haversine : Qc * Qc → Qc * Qc → Q) fuel g c A B :
  adj g (value A) = [B] → value A ≠ value B → cache_ok haversine c → 1 ≤ fuel →
  ∃ s, dijkstra haversine fuel g c A B
       = Some (Returned (Tuple2 (direct_price haversine (value A) (value B)) [A; B]), s).
Proof. apply dijkstra_only_neighbour. Qed.

Lemma dijkstra_single_neighbour_witness :
  ∃ s, dijkstra squared_degrees 1 (build [(VLC, PDX)]) cache_clear VLC PDX
       = Some (Returned (Tuple2 (direct_price squared_degrees (value VLC) (value PDX))
                           [VLC; PDX]), s).
Proof.
  assert (adj (build [(VLC, PDX)]) (value VLC) = [PDX]) as Hadj by (vm_compute; reflexivity).
  assert (value VLC ≠ value PDX) as Hne by discriminate.
  exact (dijkstra_single_neighbour squared_degrees 1 (build [(VLC, PDX)]) cache_clear
           VLC PDX Hadj Hne (cache_clear_ok squared_degrees) (le_n 1)).
Defined.

(** X7: a search that starts with a cache of true prices, within its bound
    and without a key twice, leaves such a cache behind. *)
Theorem dijkstra_keeps_cache_sound (haversine : Qc * Qc → Qc * Qc → Q) fuel g c o d r s :
  cache_ok haversine c → cache_wf c →
  dijkstra haversine fuel g c o d = Some (r, s) →
  cache_ok haversine (cache s) ∧ length (entries (cache s)) ≤ maxsize
  ∧ NoDup (cache_keys (cache s)).
Proof.
  intros Hok Hwf Hrun. split; [by eapply cache_ok_final|].
  by eapply cache_wf_final.
Qed.

Lemma cache_clear_wf : cache_wf cache_clear.
Proof. split; [simpl; lia|apply NoDup_nil_2]. Qed.

Lemma dijkstra_keeps_cache_sound_witness :
  ∃ r s, dijkstra squared_degrees 10 triangle cache_clear VLC PDX = Some (r, s)
         ∧ cache_ok squared_degrees (cache s).
Proof.
  destruct (dijkstra_terminates squared_degrees 10 triangle cache_clear VLC PDX
              triangle_fuel) as [[r s] Hrun].
  exists r, s. split; [exact Hrun|].
  exact (proj1 (dijkstra_keeps_cache_sound squared_degrees 10 triangle cache_clear
                  VLC PDX r s (cache_clear_ok squared_degrees) cache_clear_wf Hrun)).
Defined.

(** X8: through a cache of true prices [get_price] returns what its body
    computes, whether the call is a hit or a miss; the call counts as
    exactly one of the two, and the cache stays true, within its bound and
    without a key twice. *)
Theorem get_price_memoised (haversine : Qc * Qc → Qc * Qc → Q) c a b :
  cache_ok haversine c → cache_wf c →
  (get_price haversine c a b).1 = get_price_body haversine a b cents_per_km_default
  ∧ cache_ok haversine (get_price haversine c a b).2
  ∧ cache_wf (get_price haversine c a b).2
  ∧ hits (get_price haversine c a b).2 + misses (get_price haversine c a b).2
    = S (hits c + misses c).
Proof.
  intros Hok Hwf. destruct (get_price_ok haversine c a b Hok) as [Hv Hok'].
  split; [done|]. split; [done|]. split; [by apply get_price_wf|].
  apply get_price_counts.
Qed.

Lemma get_price_memoised_witness :
  (get_price squared_degrees (get_price squared_degrees cache_clear VLC PDX).2 VLC PDX).1
  = get_price_body squared_degrees VLC PDX cents_per_km_default.
Proof.
  exact (proj1 (get_price_memoised squared_degrees
                  (get_price squared_degrees cache_clear VLC PDX).2 VLC PDX
                  (proj2 (get_price_ok squared_degrees cache_clear VLC PDX
                            (cache_clear_ok squared_degrees)))
                  (get_price_wf squared_degrees cache_clear VLC PDX cache_clear_wf))).
Defined.

(** * Further properties of the heap and of the graph *)

(** X9: [Heap.pop] returns a route that is no dearer than any route in
    the heap and leaves the other routes in it, one fewer than before. *)
Theorem Heap_pop_smallest h r h' :
  pop h = Some (r, h') →
  _values h ≡ₚ r :: _values h' ∧ len h = S (len h')
  ∧ ∀ x, x ∈ _values h → (price r <= price x)%Q.
Proof. apply pop_Some. Qed.

Lemma Heap_pop_smallest_witness :
  ∃ r h', pop (push (push Heap_init (mkRoute 2 [VLC; PDX])) (mkRoute 1 [VLC; JFK]))
          = Some (r, h')
          ∧ len (push (push Heap_init (mkRoute 2 [VLC; PDX])) (mkRoute 1 [VLC; JFK]))
            = S (len h').
Proof.
  eexists _, _. split; [reflexivity|].
  exact (proj1 (proj2 (Heap_pop_smallest
           (push (push Heap_init (mkRoute 2 [VLC; PDX])) (mkRoute 1 [VLC; JFK]))
           _ _ eq_refl))).
Defined.

(** X10: [Heap.pop] fails on the empty heap only, so that the test
    [while routes] guards it; right after a push it returns a route no
    dearer than the pushed one and leaves as many routes as there were
    before the push.  Two pops in a row return routes in non-decreasing
    order of price. *)
Theorem Heap_pop_after_push h r :
  (pop h = None ↔ len h = 0)
  ∧ (∃ m h', pop (push h r) = Some (m, h') ∧ (price m <= price r)%Q
             ∧ len h' = len h ∧ r :: _values h ≡ₚ m :: _values h')
  ∧ (∀ r1 h1 r2 h2,
       pop h = Some (r1, h1) → pop h1 = Some (r2, h2) → (price r1 <= price r2)%Q).
Proof.
  split; [apply pop_None|]. split; [apply pop_push|]. apply pop_pop.
Qed.

(** X11: [connect] is idempotent: connecting the same two objects a second
    time leaves the graph as it is. *)
Theorem connect_twice g a b : connect (connect g a b) a b = connect g a b.
Proof. apply connect_idempotent. Qed.

(** X12: a graph made by [connect] calls is undirected, every neighbour
    set holds one object for each node in it, and the nodes with an entry
    are the ends of the connections, each with a non-empty set and each
    neighbour with an entry of its own. *)
Theorem build_well_formed es :
  (∀ x y, edge (build es) x y → edge (build es) y x)
  ∧ (∀ k, NoDup (value <$> adj (build es) k))
  ∧ (∀ k, is_Some (_neighbors (build es) !! k)
          ↔ ∃ e, e ∈ es ∧ (k = value e.1 ∨ k = value e.2))
  ∧ (∀ k s, _neighbors (build es) !! k = Some s → s ≠ [])
  ∧ closed (build es).
Proof.
  split; [apply build_symmetric|]. split; [apply build_one_object_per_value|].
  split; [apply build_keys|]. split; [apply build_no_empty_entry|apply closed_build].
Qed.


(** X14: after [neighbors(node)] the node has an entry that holds the set
    just returned, and a second call returns the same set and changes
    nothing. *)
Theorem neighbors_twice g node :
  _neighbors (neighbors g node).2 !! value node = Some (neighbors g node).1
  ∧ neighbors (neighbors g node).2 node = ((neighbors g node).1, (neighbors g node).2).
Proof. split; [apply neighbors_entry|apply neighbors_again]. Qed.

(** X15: every object in a loaded graph is the airport that the table
    holds for a code of a flight with two known codes.  When each airport
    of the table is stored under its own code, the graph holds no two
    different objects with equal tuples. *)
Theorem load_objects_from_table AIRPORTS flights :
  (∀ k n, n ∈ adj (load AIRPORTS flights) k →
     ∃ f, f ∈ flights
          ∧ is_Some (AIRPORTS !! origin f) ∧ is_Some (AIRPORTS !! destination f)
          ∧ (AIRPORTS !! origin f = Some n ∨ AIRPORTS !! destination f = Some n))
  ∧ ((∀ c x, AIRPORTS !! c = Some x → code (value x) = c) →
     ∀ k1 k2 n1 n2,
       n1 ∈ adj (load AIRPORTS flights) k1 → n2 ∈ adj (load AIRPORTS flights) k2 →
       value n1 = value n2 → n1 = n2).
Proof.
  split; [apply load_objects|].
  intros Hkeys k1 k2 n1 n2 H1 H2 Hv.
  apply load_objects in H1 as (f1 & _ & _ & _ & H1).
  assert (∃ c, AIRPORTS !! c = Some n1) as Hc by (destruct H1; eauto).
  symmetry. by apply (load_one_object AIRPORTS flights n1 Hkeys Hc k2 n2).
Qed.

Lemma load_objects_from_table_witness :
  (∀ c x, sample_AIRPORTS !! c = Some x → code (value x) = c)
  ∧ PDX ∈ adj triangle (value VLC) ∧ PDX ∈ adj triangle (value JFK)
  ∧ PDX = PDX.
Proof.
  assert (PDX ∈ adj triangle (value VLC)) as H1.
  { vm_compute. apply list_elem_of_further, list_elem_of_here. }
  assert (PDX ∈ adj triangle (value JFK)) as H2.
  { vm_compute. apply list_elem_of_further, list_elem_of_here. }
  split; [exact sample_AIRPORTS_keyed|]. split; [exact H1|]. split; [exact H2|].
  exact (proj2 (load_objects_from_table sample_AIRPORTS
                  [mkFlight "VLC" "JFK"; mkFlight "JFK" "PDX"; mkFlight "VLC" "PDX";
                   mkFlight "VLC" "ZZZ"])
           sample_AIRPORTS_keyed (value VLC) (value JFK) PDX PDX H1 H2 eq_refl).
Defined.

Lemma Heap_pop_after_push_witness :
  ∃ m h', pop (push Heap_init (mkRoute 1 [VLC; JFK])) = Some (m, h')
          ∧ (price m <= 1)%Q.
Proof.
  destruct (proj1 (proj2 (Heap_pop_after_push Heap_init (mkRoute 1 [VLC; JFK]))))
    as (m & h' & Hpop & Hle & _).
  exists m, h'. split; [exact Hpop|exact Hle].
Defined.

Lemma build_well_formed_witness :
  edge (build [(VLC, JFK)]) (value JFK) (value VLC).
Proof.
  apply (proj1 (build_well_formed [(VLC, JFK)])).
  apply edge_build. exists (VLC, JFK). split; [apply list_elem_of_here|].
  left. split; reflexivity.
Defined.

(** * Further properties of the readers and of the script *)

(** X16: when [AIRPORTS] is built, every row of the airports table has
    been read, every airport is stored under its own code, and of several
    rows with one code the last one is the airport that the code gives. *)
Theorem AIRPORTS_last_row_wins (float : string → option Qc) rows T :
  AIRPORTS_of float rows = Got T →
  ∃ airports,
    get_airports float rows = (airports, None)
    ∧ Forall2 (λ row a, airport_of_row float row = Got (value a)) rows airports
    ∧ (∀ c, T !! c = last (filter (λ a, code (value a) = c) airports))
    ∧ (∀ c x, T !! c = Some x → code (value x) = c).
Proof.
  unfold AIRPORTS_of. destruct (get_airports float rows) as [l [e|]] eqn:E; [done|].
  intros [= <-]. exists l. split; [done|]. split.
  - unfold get_airports in E. by destruct (get_airports_from_None float 0 rows l E).
  - split; [apply by_code_lookup|]. intros c x Hx. by destruct (by_code_keyed l c x Hx).
Qed.

Lemma sample_AIRPORTS_read :
  ∃ T, AIRPORTS_of sample_float sample_airport_rows = Got T.
Proof.
  apply AIRPORTS_of_Got. unfold sample_airport_rows.
  repeat constructor; simpl; try lia; intros s [= <-]; by eexists.
Qed.

Lemma AIRPORTS_last_row_wins_witness :
  ∃ T, AIRPORTS_of sample_float sample_airport_rows = Got T
       ∧ ∀ c x, T !! c = Some x → code (value x) = c.
Proof.
  destruct sample_AIRPORTS_read as [T HT]. exists T. split; [exact HT|].
  destruct (AIRPORTS_last_row_wins sample_float sample_airport_rows T HT)
    as (l & _ & _ & _ & H).
  exact H.
Defined.

(** X17: [AIRPORTS] is built exactly when every row of the airports table
    has at least eight columns and numbers in columns 6 and 7; otherwise
    the exception that ends the import is the one of a row that cannot be
    read, and a row with fewer than seven columns gives [IndexError]. *)
Theorem AIRPORTS_needs_every_row (float : string → option Qc) rows :
  (Forall (airport_row_ok float) rows ↔ ∃ T, AIRPORTS_of float rows = Got T)
  ∧ (∀ e, AIRPORTS_of float rows = Failed e →
          ∃ row, row ∈ rows ∧ airport_of_row float row = Failed e)
  ∧ (∀ row, length row < 7 → airport_of_row float row = Failed ReadIndexError).
Proof.
  split; [apply AIRPORTS_of_Got|]. split.
  - intros e. unfold AIRPORTS_of, get_airports.
    destruct (get_airports_from float 0 rows) as [l [e'|]] eqn:E; [|done].
    intros [= <-]. by eapply get_airports_from_Some.
  - intros row Hlen.
    unfold airport_of_row, item, mbind, reading_bind.
    destruct (row !! 1) eqn:E1; [|done]. destruct (row !! 3) eqn:E3; [|done].
    destruct (row !! 4) eqn:E4; [|done]. destruct (row !! 6) eqn:E6; [|done].
    apply lookup_lt_Some in E6. lia.
Qed.

Lemma AIRPORTS_needs_every_row_witness :
  AIRPORTS_of sample_float (sample_airport_rows ++ [["3"; "Nowhere"]])
  = Failed ReadIndexError.
Proof.
  destruct (AIRPORTS_of sample_float (sample_airport_rows ++ [["3"; "Nowhere"]]))
    as [T|e] eqn:E.
  - exfalso.
    assert (Forall (airport_row_ok sample_float)
              (sample_airport_rows ++ [["3"; "Nowhere"]])) as H.
    { apply (proj1 (AIRPORTS_needs_every_row sample_float _)). by exists T. }
    apply Forall_app in H as [_ H]. apply Forall_cons in H as [[H _] _].
    simpl in H. lia.
  - f_equal.
    destruct (proj1 (proj2 (AIRPORTS_needs_every_row sample_float _)) e E)
      as (row & Hin & Hrow).
    apply elem_of_app in Hin as [Hin|Hin].
    + exfalso. unfold sample_airport_rows in Hin.
      repeat (apply elem_of_cons in Hin as [->|Hin]); [discriminate Hrow..|].
      by apply not_elem_of_nil in Hin.
    + apply list_elem_of_singleton in Hin as ->. by injection Hrow.
Defined.

(** X18: [get_flights] ends without an exception exactly when every row of
    the flights table has at least eight columns and an integer in column
    7; it then yields, in the order of the file, one flight for each row
    whose number of stops is zero, and none for the others. *)
Theorem get_flights_keeps_direct (int : string → option Z) rows :
  (Forall (flight_row_ok int) rows ↔ ∃ flights, get_flights int rows = (flights, None))
  ∧ ∀ flights,
      get_flights int rows = (flights, None) →
      flights = omap (λ row, match flight_of_row int row with
                             | Got (Some f) => Some f
                             | _ => None
                             end) rows
      ∧ ∀ f, f ∈ flights ↔
             ∃ row s, row ∈ rows ∧ row !! 2 = Some (origin f)
                      ∧ row !! 4 = Some (destination f)
                      ∧ row !! 7 = Some s ∧ int s = Some 0%Z.
Proof.
  split.
  - split.
    + intros Hall. destruct (get_flights int rows) as [l [e|]] eqn:E; [|by eexists].
      apply get_flights_Some in E as (row & Hin & Hf).
      apply (proj1 (Forall_forall _ _) Hall) in Hin.
      apply flight_of_row_ok in Hin as [f Hf']. congruence.
    + intros [l Hl]. by destruct (get_flights_None int rows l Hl).
  - intros l Hl. destruct (get_flights_None int rows l Hl) as [_ ->].
    split; [done|]. intros f. rewrite list_elem_of_omap. split.
    + intros (row & Hin & Hf).
      destruct (flight_of_row int row) as [[f'|]|] eqn:E; try done.
      injection Hf as ->.
      apply flight_of_row_Got in E as (o & d & s & n & E2 & E4 & E7 & Hn & Hf).
      case_decide; [|done]. injection Hf as ->. subst n.
      by exists row, s.
    + intros (row & s & Hin & E2 & E4 & E7 & Hn). exists row. split; [done|].
      assert (flight_of_row int row = Got (Some f)) as ->; [|done].
      apply flight_of_row_Got. exists (origin f), (destination f), s, 0%Z.
      repeat split; try done. rewrite decide_True by done. by destruct f.
Qed.

Lemma get_flights_keeps_direct_witness :
  get_flights sample_int sample_flight_rows = ([mkFlight "VLC" "PDX"], None)
  ∧ mkFlight "VLC" "PDX" ∈ [mkFlight "VLC" "PDX"].
Proof.
  assert (get_flights sample_int sample_flight_rows = ([mkFlight "VLC" "PDX"], None))
    as H by reflexivity.
  split; [exact H|].
  apply (proj2 (proj2 (get_flights_keeps_direct sample_int sample_flight_rows) _ H)
           (mkFlight "VLC" "PDX")).
  exists ["IB"; "1"; "VLC"; "1"; "PDX"; "2"; ""; "0"], "0".
  split; [apply list_elem_of_here|]. repeat split; reflexivity.
Defined.




